(** * TalentFlow: reconciliation core

    A shallow embedding of the parts of the TalentFlow hiring platform that
    keep three copies of the data consistent:

    - the Persistent Record Store: [StorageService] of lib/storage,
    - the Simulated Backend: the MirageJS route handlers of [makeServer],
    - the Client API Layer and its retry wrapper: api/services.ts,
    - the Synchronous UI Store: the zustand stores of the store module,
      and the query and mutation hooks that drive it ([useJobs],
      [useCandidates], [useUpdateJob], [useReorderJobs]).

    Conventions of the embedding.
    - A JavaScript [number] holding an order, a count or a status code is a
      [Z]; every such value in the program is an integer far below 2^53.
    - Strings are [string]; the JavaScript test [s || d] on a string is
      [str_or s d] below (the empty string is the only falsy string).
    - A localforage table is a [gmap string _] from key to record.
    - [new Date().toISOString()] and [Math.random().toString(36).substr(2, 9)]
      are inputs of the handler that reads them ([now], [rnd]); one handler
      run reads the clock once.
    - A route handler is a function from the table to a response and the
      table afterwards.  [addLatency] only delays, and [maybeError] compares
      [Math.random()] with an error rate of 0, so neither has an effect.
      The handlers take the request body already parsed, and the storage
      calls do not fail, so the [catch] branches (status 500) are not
      reached. *)

From stdpp Require Import gmap strings list sorting pretty.

Open Scope string_scope.
Open Scope Z_scope.

(** ** JavaScript idioms *)

(** [s || d] on strings. *)
Definition str_or (s d : string) : string :=
  if decide (s = "") then d else s.

(** Whether [Array.prototype.find] returned an element: the truth value of
    its result when the elements are objects. *)
Definition found {A} (o : option A) : bool :=
  match o with Some _ => true | None => false end.

(** [n || d] on numbers ([0] is falsy). *)
Definition num_or (n d : Z) : Z :=
  if decide (n = 0) then d else n.

(** [Array.prototype.sort] with the comparator [(a, b) => key a - key b]:
    a stable sort by [key], written as a stable insertion sort. *)
Section StableSort.
Context {A : Type} (key : A → Z).

Fixpoint sort_insert (x : A) (l : list A) : list A :=
  match l with
  | [] => [x]
  | y :: l' => if decide (key x ≤ key y) then x :: l else y :: sort_insert x l'
  end.

Definition sort_by (l : list A) : list A := foldr sort_insert [] l.
End StableSort.

(** ** Data model (types/index.ts) *)

Inductive JobStatus := active | archived.
Inductive JobType := full_time | part_time | contract | internship.

Record Salary := mkSalary {
  salary_min : Z;
  salary_max : Z;
  salary_currency : string;
}.

Record Job := mkJob {
  job_id : string;
  job_createdAt : string;
  job_updatedAt : string;
  job_title : string;
  job_slug : string;
  job_description : string;
  job_status : JobStatus;
  job_tags : list string;
  job_order : Z;
  job_location : string;
  job_type : JobType;
  job_salary : option Salary;
}.

Inductive CandidateStage := applied | screen | tech | offer | hired | rejected.

Record CandidateNote := mkNote {
  note_id : string;
  note_createdAt : string;
  note_updatedAt : string;
  note_content : string;
  note_authorId : string;
  note_authorName : string;
  note_mentions : list string;
}.

Inductive TimelineEventType :=
  stage_change | note_added | assessment_completed | interview_scheduled.

Record CandidateTimelineEvent := mkEvent {
  event_id : string;
  event_createdAt : string;
  event_updatedAt : string;
  event_type : TimelineEventType;
  event_description : string;
  event_previousStage : option CandidateStage;
  event_newStage : option CandidateStage;
}.

Record Candidate := mkCandidate {
  candidate_id : string;
  candidate_createdAt : string;
  candidate_updatedAt : string;
  candidate_name : string;
  candidate_email : string;
  candidate_phone : option string;
  candidate_resumeUrl : option string;
  candidate_stage : CandidateStage;
  candidate_jobId : string;
  candidate_avatar : option string;
  candidate_notes : list CandidateNote;
  candidate_timeline : list CandidateTimelineEvent;
}.

#[global] Instance JobStatus_eq_dec : EqDecision JobStatus.
Proof. solve_decision. Defined.
#[global] Instance JobType_eq_dec : EqDecision JobType.
Proof. solve_decision. Defined.
#[global] Instance Salary_eq_dec : EqDecision Salary.
Proof. solve_decision. Defined.
#[global] Instance Job_eq_dec : EqDecision Job.
Proof. solve_decision. Defined.
#[global] Instance CandidateStage_eq_dec : EqDecision CandidateStage.
Proof. solve_decision. Defined.
#[global] Instance CandidateNote_eq_dec : EqDecision CandidateNote.
Proof. solve_decision. Defined.
#[global] Instance TimelineEventType_eq_dec : EqDecision TimelineEventType.
Proof. solve_decision. Defined.
#[global] Instance CandidateTimelineEvent_eq_dec : EqDecision CandidateTimelineEvent.
Proof. solve_decision. Defined.
#[global] Instance Candidate_eq_dec : EqDecision Candidate.
Proof. solve_decision. Defined.

(** The stage names as they appear in template strings. *)
Definition stage_name (s : CandidateStage) : string :=
  match s with
  | applied => "applied" | screen => "screen" | tech => "tech"
  | offer => "offer" | hired => "hired" | rejected => "rejected"
  end.

(** Record updates [{ ...job, field: v }]. *)
Definition job_with_order (j : Job) (o : Z) : Job :=
  mkJob (job_id j) (job_createdAt j) (job_updatedAt j) (job_title j) (job_slug j)
        (job_description j) (job_status j) (job_tags j) o (job_location j)
        (job_type j) (job_salary j).

Definition job_with_updatedAt (j : Job) (t : string) : Job :=
  mkJob (job_id j) (job_createdAt j) t (job_title j) (job_slug j)
        (job_description j) (job_status j) (job_tags j) (job_order j) (job_location j)
        (job_type j) (job_salary j).

Definition job_with_status (j : Job) (st : JobStatus) : Job :=
  mkJob (job_id j) (job_createdAt j) (job_updatedAt j) (job_title j) (job_slug j)
        (job_description j) st (job_tags j) (job_order j) (job_location j)
        (job_type j) (job_salary j).

(** HTTP-shaped results of a route handler: a plain object
    [{ success: true, data }] or [new Response(status, {}, { success: false,
    message })]. *)
Inductive HttpResult (A : Type) :=
  | Success (data : A)
  | Failure (status : Z) (message : string).
Arguments Success {A} data.
Arguments Failure {A} status message.

(** ** Persistent Record Store (lib/storage.ts) *)

Module StorageService.

(** [value && typeof value === 'object' && value.id] *)
Definition valid_record (value : Job) : bool :=
  bool_decide (job_id value ≠ "").

(** The object literal [validJob] of [getAllJobs].  The fields of enum,
    array and number type are present in a [Job], so their defaults
    ([?? 999999], [|| 'active'], [|| 'full-time'], [: []]) do not fire. *)
Definition validJob (now : string) (value : Job) : Job :=
  mkJob (job_id value)
        (str_or (job_createdAt value) now)
        (str_or (job_updatedAt value) now)
        (str_or (job_title value) "Untitled Job")
        (str_or (job_slug value) (job_id value))
        (str_or (job_description value) "")
        (job_status value)
        (job_tags value)
        (job_order value)
        (str_or (job_location value) "")
        (job_type value)
        (job_salary value).

(** [(a.order || 999999)], the key of the final sort. *)
Definition order_key (j : Job) : Z := num_or (job_order j) 999999.

(** [jobsStore.iterate]: the records of the table, in the table's order. *)
Definition iterate {V} (table : gmap string V) : list V := (map_to_list table).*2.

Definition getAllJobs (now : string) (jobsStore : gmap string Job) : list Job :=
  sort_by order_key
    (validJob now <$> List.filter valid_record (iterate jobsStore)).

Definition getJob (id : string) (jobsStore : gmap string Job) : option Job :=
  jobsStore !! id.

Definition saveJob (job : Job) (jobsStore : gmap string Job) : gmap string Job :=
  <[job_id job := job]> jobsStore.

Definition deleteJob (id : string) (jobsStore : gmap string Job) : gmap string Job :=
  delete id jobsStore.

Definition getJobBySlug (now : string) (slug : string) (jobsStore : gmap string Job)
  : option Job :=
  List.find (λ job, bool_decide (job_slug job = slug)) (getAllJobs now jobsStore).

Definition getCandidate (id : string) (candidatesStore : gmap string Candidate)
  : option Candidate :=
  candidatesStore !! id.

Definition saveCandidate (candidate : Candidate)
    (candidatesStore : gmap string Candidate) : gmap string Candidate :=
  <[candidate_id candidate := candidate]> candidatesStore.

Definition deleteCandidate (id : string) (candidatesStore : gmap string Candidate)
  : gmap string Candidate :=
  delete id candidatesStore.

(** [Promise.all(jobs.map(job => saveJob(job)))]: the writes are issued in
    list order. *)
Definition saveJobs (jobs : list Job) (jobsStore : gmap string Job) : gmap string Job :=
  foldl (λ store job, saveJob job store) jobsStore jobs.

End StorageService.

(** Every write to the jobs table goes through [saveJob], which files a
    record under its own id. *)
Definition keyed (jobsStore : gmap string Job) : Prop :=
  map_Forall (λ k job, job_id job = k) jobsStore.

(** Likewise for the candidates table and [saveCandidate]. *)
Definition keyed_candidates (candidatesStore : gmap string Candidate) : Prop :=
  map_Forall (λ k candidate, candidate_id candidate = k) candidatesStore.

(** ** Partial objects and request bodies *)

(** [{ ...a, ...b }] on one field: the right operand wins where it has the
    field. *)
Definition spread {A} (a : A) (b : option A) : A := default a b.
Definition spread_opt {A} (a b : option A) : option A :=
  match b with Some v => Some v | None => a end.

(** [Partial<Job>]; also the shape of a cached object built from a spread
    over a possibly missing job. *)
Record JobPatch := mkJobPatch {
  jp_id : option string;
  jp_createdAt : option string;
  jp_updatedAt : option string;
  jp_title : option string;
  jp_slug : option string;
  jp_description : option string;
  jp_status : option JobStatus;
  jp_tags : option (list string);
  jp_order : option Z;
  jp_location : option string;
  jp_type : option JobType;
  jp_salary : option Salary;
}.

#[global] Instance JobPatch_eq_dec : EqDecision JobPatch.
Proof. solve_decision. Defined.

Definition empty_job_patch : JobPatch :=
  mkJobPatch None None None None None None None None None None None None.

(** [{ ...job, ...updates }] *)
Definition job_spread (job : Job) (updates : JobPatch) : Job :=
  mkJob (spread (job_id job) (jp_id updates))
        (spread (job_createdAt job) (jp_createdAt updates))
        (spread (job_updatedAt job) (jp_updatedAt updates))
        (spread (job_title job) (jp_title updates))
        (spread (job_slug job) (jp_slug updates))
        (spread (job_description job) (jp_description updates))
        (spread (job_status job) (jp_status updates))
        (spread (job_tags job) (jp_tags updates))
        (spread (job_order job) (jp_order updates))
        (spread (job_location job) (jp_location updates))
        (spread (job_type job) (jp_type updates))
        (spread_opt (job_salary job) (jp_salary updates)).

(** A whole job seen as an object. *)
Definition job_object (job : Job) : JobPatch :=
  mkJobPatch (Some (job_id job)) (Some (job_createdAt job)) (Some (job_updatedAt job))
             (Some (job_title job)) (Some (job_slug job)) (Some (job_description job))
             (Some (job_status job)) (Some (job_tags job)) (Some (job_order job))
             (Some (job_location job)) (Some (job_type job)) (job_salary job).

(** [{ ...old, ...updates }] where [old] is an object or [undefined]. *)
Definition object_spread (old : option JobPatch) (updates : JobPatch) : JobPatch :=
  let o := default empty_job_patch old in
  mkJobPatch (spread_opt (jp_id o) (jp_id updates))
             (spread_opt (jp_createdAt o) (jp_createdAt updates))
             (spread_opt (jp_updatedAt o) (jp_updatedAt updates))
             (spread_opt (jp_title o) (jp_title updates))
             (spread_opt (jp_slug o) (jp_slug updates))
             (spread_opt (jp_description o) (jp_description updates))
             (spread_opt (jp_status o) (jp_status updates))
             (spread_opt (jp_tags o) (jp_tags updates))
             (spread_opt (jp_order o) (jp_order updates))
             (spread_opt (jp_location o) (jp_location updates))
             (spread_opt (jp_type o) (jp_type updates))
             (spread_opt (jp_salary o) (jp_salary updates)).

(** The body of POST /jobs: [Omit<Job, 'id' | 'createdAt' | 'updatedAt'>],
    and the [id] the handler looks for. *)
Record JobData := mkJobData {
  jd_id : option string;
  jd_title : string;
  jd_slug : string;
  jd_description : string;
  jd_status : JobStatus;
  jd_tags : list string;
  jd_order : Z;
  jd_location : string;
  jd_type : JobType;
  jd_salary : option Salary;
}.

(** [Partial<Candidate>], the body of PATCH /candidates/:id. *)
Record CandidatePatch := mkCandidatePatch {
  cp_id : option string;
  cp_createdAt : option string;
  cp_updatedAt : option string;
  cp_name : option string;
  cp_email : option string;
  cp_phone : option string;
  cp_resumeUrl : option string;
  cp_stage : option CandidateStage;
  cp_jobId : option string;
  cp_avatar : option string;
  cp_notes : option (list CandidateNote);
  cp_timeline : option (list CandidateTimelineEvent);
}.

(** [{ ...candidate, ...updates }] *)
Definition candidate_spread (c : Candidate) (updates : CandidatePatch) : Candidate :=
  mkCandidate (spread (candidate_id c) (cp_id updates))
              (spread (candidate_createdAt c) (cp_createdAt updates))
              (spread (candidate_updatedAt c) (cp_updatedAt updates))
              (spread (candidate_name c) (cp_name updates))
              (spread (candidate_email c) (cp_email updates))
              (spread_opt (candidate_phone c) (cp_phone updates))
              (spread_opt (candidate_resumeUrl c) (cp_resumeUrl updates))
              (spread (candidate_stage c) (cp_stage updates))
              (spread (candidate_jobId c) (cp_jobId updates))
              (spread_opt (candidate_avatar c) (cp_avatar updates))
              (spread (candidate_notes c) (cp_notes updates))
              (spread (candidate_timeline c) (cp_timeline updates)).

Definition candidate_with_timeline (c : Candidate) (tl : list CandidateTimelineEvent)
  : Candidate :=
  mkCandidate (candidate_id c) (candidate_createdAt c) (candidate_updatedAt c)
              (candidate_name c) (candidate_email c) (candidate_phone c)
              (candidate_resumeUrl c) (candidate_stage c) (candidate_jobId c)
              (candidate_avatar c) (candidate_notes c) tl.

Definition candidate_with_updatedAt (c : Candidate) (t : string) : Candidate :=
  mkCandidate (candidate_id c) (candidate_createdAt c) t
              (candidate_name c) (candidate_email c) (candidate_phone c)
              (candidate_resumeUrl c) (candidate_stage c) (candidate_jobId c)
              (candidate_avatar c) (candidate_notes c) (candidate_timeline c).

(** The body of POST /candidates: the fields of
    [Omit<Candidate, 'id' | 'createdAt' | 'updatedAt' | 'notes' | 'timeline'>],
    and what else the spread would pick up from the body. *)
Record CandidateData := mkCandidateData {
  cd_id : option string;
  cd_name : string;
  cd_email : string;
  cd_phone : option string;
  cd_resumeUrl : option string;
  cd_stage : CandidateStage;
  cd_jobId : string;
  cd_avatar : option string;
  cd_notes : option (list CandidateNote);
  cd_timeline : option (list CandidateTimelineEvent);
}.

(** ** Simulated Backend (mirage/server.ts) *)

Module Server.
Import StorageService.

(** POST /jobs *)
Definition post_jobs (now rnd : string) (jobData : JobData)
    (jobsStore : gmap string Job) : HttpResult Job * gmap string Job :=
  match getJobBySlug now (jd_slug jobData) jobsStore with
  | Some existingJob => (Failure 400 "Slug already exists", jobsStore)
  | None =>
      let job :=
        mkJob (str_or (default "" (jd_id jobData)) rnd) now now
              (jd_title jobData) (jd_slug jobData) (jd_description jobData)
              (jd_status jobData) (jd_tags jobData) (jd_order jobData)
              (jd_location jobData) (jd_type jobData) (jd_salary jobData) in
      (Success job, saveJob job jobsStore)
  end.

(** PATCH /jobs/:id *)
Definition patch_jobs (now : string) (id : string) (updateData : JobPatch)
    (jobsStore : gmap string Job) : HttpResult Job * gmap string Job :=
  match getJob id jobsStore with
  | None => (Failure 404 "Job not found", jobsStore)
  | Some existingJob =>
      let updatedJob := job_with_updatedAt (job_spread existingJob updateData) now in
      (Success updatedJob, saveJob updatedJob jobsStore)
  end.

(** The callback of [jobs.map] in PATCH /jobs/:id/reorder. *)
Definition reorder_job (now : string) (fromOrder toOrder : Z) (job : Job) : Job :=
  if decide (job_order job = fromOrder) then
    job_with_updatedAt (job_with_order job toOrder) now
  else if decide (fromOrder < toOrder ∧ job_order job > fromOrder ∧ job_order job ≤ toOrder) then
    job_with_updatedAt (job_with_order job (job_order job - 1)) now
  else if decide (fromOrder > toOrder ∧ job_order job >= toOrder ∧ job_order job < fromOrder) then
    job_with_updatedAt (job_with_order job (job_order job + 1)) now
  else job.

(** PATCH /jobs/:id/reorder *)
Definition patch_jobs_reorder (now : string) (fromOrder toOrder : Z)
    (jobsStore : gmap string Job) : HttpResult (list Job) * gmap string Job :=
  let jobs := getAllJobs now jobsStore in
  match List.find (λ job, bool_decide (job_order job = fromOrder)) jobs with
  | None => (Failure 400 "Job not found", jobsStore)
  | Some jobToMove =>
      let updatedJobs := reorder_job now fromOrder toOrder <$> jobs in
      (Success updatedJobs, saveJobs updatedJobs jobsStore)
  end.

(** DELETE /jobs/:id *)
Definition delete_jobs (now : string) (id : string)
    (jobsStore : gmap string Job) : HttpResult Job * gmap string Job :=
  match getJob id jobsStore with
  | None => (Failure 404 "Job not found", jobsStore)
  | Some existingJob =>
      let archivedJob := job_with_updatedAt (job_with_status existingJob archived) now in
      (Success archivedJob, saveJob archivedJob jobsStore)
  end.

(** The timeline entry written by POST /candidates. *)
Definition applied_event (now rnd : string) (stage : CandidateStage)
  : CandidateTimelineEvent :=
  mkEvent rnd now now stage_change "Applied to position" None (Some stage).

(** POST /candidates; [rnd1] and [rnd2] are the two random draws, in
    evaluation order. *)
Definition post_candidates (now rnd1 rnd2 : string) (candidateData : CandidateData)
    (candidatesStore : gmap string Candidate)
  : HttpResult Candidate * gmap string Candidate :=
  let candidate :=
    mkCandidate (str_or (default "" (cd_id candidateData)) rnd1) now now
                (cd_name candidateData) (cd_email candidateData)
                (cd_phone candidateData) (cd_resumeUrl candidateData)
                (cd_stage candidateData) (cd_jobId candidateData)
                (cd_avatar candidateData)
                []
                [applied_event now rnd2 (cd_stage candidateData)] in
  (Success candidate, saveCandidate candidate candidatesStore).

(** The timeline entry written by PATCH /candidates/:id. *)
Definition moved_event (now rnd : string) (previousStage newStage : CandidateStage)
  : CandidateTimelineEvent :=
  mkEvent rnd now now stage_change
          ("Moved to " +:+ stage_name newStage +:+ " stage")
          (Some previousStage) (Some newStage).

(** PATCH /candidates/:id *)
Definition patch_candidates (now rnd : string) (id : string)
    (updateData : CandidatePatch) (candidatesStore : gmap string Candidate)
  : HttpResult Candidate * gmap string Candidate :=
  match getCandidate id candidatesStore with
  | None => (Failure 404 "Candidate not found", candidatesStore)
  | Some existingCandidate =>
      let timeline :=
        match cp_stage updateData with
        | Some stage =>
            if decide (stage ≠ candidate_stage existingCandidate) then
              (candidate_timeline existingCandidate
                 ++ [moved_event now rnd (candidate_stage existingCandidate) stage])%list
            else candidate_timeline existingCandidate
        | None => candidate_timeline existingCandidate
        end in
      let updatedCandidate :=
        candidate_with_updatedAt
          (candidate_with_timeline
             (candidate_spread existingCandidate updateData) timeline) now in
      (Success updatedCandidate, saveCandidate updatedCandidate candidatesStore)
  end.

End Server.

(** ** Client API Layer (api/services.ts) *)

(** Values that are thrown.  [ApiError] is the class of services.ts (its
    [data] field is never read); the other three are the shapes
    [handleApiError] tells apart: an error with a [response], an error with
    only a [request], and any other [Error].  A thrown [null] or
    [undefined], on which [handleApiError] throws a [TypeError], is not
    among them. *)
Inductive JsError :=
  | ApiError (message : string) (status : option Z)
  | ResponseError (status : Z) (data_message : option string)
  | RequestError
  | PlainError (message : string).

#[global] Instance JsError_eq_dec : EqDecision JsError.
Proof. solve_decision. Defined.

(** A settled promise. *)
Inductive Outcome (T : Type) :=
  | Resolved (value : T)
  | Rejected (error : JsError).
Arguments Resolved {T} value.
Arguments Rejected {T} error.

(** What [fetch] and [response.json()] deliver: a rejection (network
    failure) or a response with its status and parsed body. *)
Record FetchResponse (T : Type) := mkResponse {
  resp_status : Z;
  resp_message : option string;
  resp_data : option T;
}.
Arguments mkResponse {T} _ _ _.
Arguments resp_status {T} _.
Arguments resp_message {T} _.
Arguments resp_data {T} _.

Inductive FetchOutcome (T : Type) :=
  | NetworkFailure (message : string)
  | Responded (response : FetchResponse T).
Arguments NetworkFailure {T} message.
Arguments Responded {T} response.

(** [response.ok] *)
Definition resp_ok {T} (r : FetchResponse T) : bool :=
  bool_decide (200 ≤ resp_status r ≤ 299).

(** How a route handler's result reaches [fetch]. *)
Definition respond {T} (r : HttpResult T) : FetchOutcome T :=
  match r with
  | Success d => Responded (mkResponse 200 None (Some d))
  | Failure st m => Responded (mkResponse st (Some m) None)
  end.

Definition apiCall {T} (fetched : FetchOutcome T) : Outcome (FetchResponse T) :=
  match fetched with
  | NetworkFailure m => Rejected (PlainError m)
  | Responded response =>
      if resp_ok response then Resolved response
      else Rejected (PlainError
             (str_or (default "" (resp_message response))
                     ("HTTP error! status: " +:+ pretty (resp_status response))))
  end.

Definition handleApiError (error : JsError) : JsError :=
  match error with
  | ApiError _ _ => error
  | ResponseError st m => ApiError (str_or (default "" m) "An error occurred") (Some st)
  | RequestError => ApiError "Network error - no response received" None
  | PlainError m => ApiError (str_or m "An unexpected error occurred") None
  end.

(** [error instanceof ApiError && error.status && error.status < 500] *)
Definition gives_up (error : JsError) : bool :=
  match error with
  | ApiError _ (Some st) => bool_decide (st ≠ 0) && bool_decide (st < 500)
  | _ => false
  end.

(** The loop of [withRetry], entered at iteration [i] with [remaining]
    iterations after this one ([i + remaining = maxRetries]).  [fn k] is the
    outcome of the call made in iteration [k].  The result comes with the
    delays, in milliseconds, waited on the way. *)
Fixpoint withRetry_loop {T} (fn : nat → Outcome T) (delay : Z) (i remaining : nat)
  : Outcome T * list Z :=
  match fn i with
  | Resolved v => (Resolved v, [])
  | Rejected error =>
      match remaining with
      | O => (Rejected (handleApiError error), [])
      | S remaining' =>
          if gives_up error then (Rejected error, [])
          else
            let '(result, waits) := withRetry_loop fn delay (S i) remaining' in
            (result, delay * 2 ^ Z.of_nat i :: waits)
      end
  end.

Definition withRetry {T} (fn : nat → Outcome T) (maxRetries : nat) (delay : Z)
  : Outcome T * list Z :=
  withRetry_loop fn delay 0 maxRetries.

(** The defaults: [maxRetries = 3], [delay = 1000]. *)
Definition withRetry_default {T} (fn : nat → Outcome T) : Outcome T * list Z :=
  withRetry fn 3 1000.

(** The number of calls of [fn] behind a result: the first call, and one
    call after each wait. *)
Definition attempts {T} (r : Outcome T * list Z) : nat := S (length r.2).

(** ** Synchronous UI Store (store/index.ts) *)

Record Pagination := mkPagination {
  page : Z;
  pageSize : Z;
  total : Z;
  totalPages : Z;
}.

Record PaginationPatch := mkPaginationPatch {
  pp_page : option Z;
  pp_pageSize : option Z;
  pp_total : option Z;
  pp_totalPages : option Z;
}.

Definition pagination_spread (p : Pagination) (u : PaginationPatch) : Pagination :=
  mkPagination (spread (page p) (pp_page u)) (spread (pageSize p) (pp_pageSize u))
               (spread (total p) (pp_total u)) (spread (totalPages p) (pp_totalPages u)).

Record LoadingState := mkLoading {
  isLoading : bool;
  loading_error : option string;
}.

Inductive StatusFilter := status_all | status_active | status_archived.
Inductive SortField := sort_title | sort_createdAt | sort_order.
Inductive SortDirection := asc | desc.

Record JobsFilters := mkJobsFilters {
  jf_search : string;
  jf_status : StatusFilter;
  jf_tags : list string;
  jf_sort : SortField;
  jf_sortDirection : SortDirection;
}.

Record JobsState := mkJobsState {
  jobs : list Job;
  currentJob : option Job;
  jobs_loading : LoadingState;
  jobs_filters : JobsFilters;
  jobs_pagination : Pagination;
}.

Record CandidatesFilters := mkCandidatesFilters {
  cf_search : string;
  cf_stage : option CandidateStage;   (* [None] is 'all' *)
  cf_jobId : string;
}.

Record CandidatesState := mkCandidatesState {
  candidates : list Candidate;
  currentCandidate : option Candidate;
  candidates_loading : LoadingState;
  candidates_filters : CandidatesFilters;
  candidates_pagination : Pagination;
}.

#[global] Instance Pagination_eq_dec : EqDecision Pagination.
Proof. solve_decision. Defined.
#[global] Instance LoadingState_eq_dec : EqDecision LoadingState.
Proof. solve_decision. Defined.
#[global] Instance StatusFilter_eq_dec : EqDecision StatusFilter.
Proof. solve_decision. Defined.
#[global] Instance SortField_eq_dec : EqDecision SortField.
Proof. solve_decision. Defined.
#[global] Instance SortDirection_eq_dec : EqDecision SortDirection.
Proof. solve_decision. Defined.
#[global] Instance JobsFilters_eq_dec : EqDecision JobsFilters.
Proof. solve_decision. Defined.
#[global] Instance JobsState_eq_dec : EqDecision JobsState.
Proof. solve_decision. Defined.
#[global] Instance CandidatesFilters_eq_dec : EqDecision CandidatesFilters.
Proof. solve_decision. Defined.
#[global] Instance CandidatesState_eq_dec : EqDecision CandidatesState.
Proof. solve_decision. Defined.

(** [Array.isArray(x) ? x : []] and [x || []], for a value that is an array
    or missing. *)
Definition array_or_empty {A} (x : option (list A)) : list A := default [] x.

Module JobsStore.

Definition initial : JobsState :=
  mkJobsState [] None (mkLoading false None)
              (mkJobsFilters "" status_all [] sort_order asc)
              (mkPagination 1 10 0 0).

Definition setJobs (js : list Job) (state : JobsState) : JobsState :=
  mkJobsState js (currentJob state) (jobs_loading state) (jobs_filters state)
              (jobs_pagination state).

Definition setCurrentJob (job : option Job) (state : JobsState) : JobsState :=
  mkJobsState (jobs state) job (jobs_loading state) (jobs_filters state)
              (jobs_pagination state).

Definition addJob (job : Job) (state : JobsState) : JobsState :=
  mkJobsState (jobs state ++ [job])%list (currentJob state) (jobs_loading state)
              (jobs_filters state) (jobs_pagination state).

Definition updateJob (id : string) (updates : JobPatch) (state : JobsState) : JobsState :=
  mkJobsState
    ((λ job, if decide (job_id job = id) then job_spread job updates else job)
       <$> jobs state)
    (match currentJob state with
     | Some cur => if decide (job_id cur = id) then Some (job_spread cur updates)
                   else Some cur
     | None => None
     end)
    (jobs_loading state) (jobs_filters state) (jobs_pagination state).

Definition removeJob (id : string) (state : JobsState) : JobsState :=
  mkJobsState
    (List.filter (λ job, bool_decide (job_id job ≠ id)) (jobs state))
    (match currentJob state with
     | Some cur => if decide (job_id cur = id) then None else Some cur
     | None => None
     end)
    (jobs_loading state) (jobs_filters state) (jobs_pagination state).

Definition setLoading (loading : LoadingState) (state : JobsState) : JobsState :=
  mkJobsState (jobs state) (currentJob state) loading (jobs_filters state)
              (jobs_pagination state).

Definition setPagination (pagination : PaginationPatch) (state : JobsState) : JobsState :=
  mkJobsState (jobs state) (currentJob state) (jobs_loading state) (jobs_filters state)
              (pagination_spread (jobs_pagination state) pagination).

End JobsStore.

Module CandidatesStore.

Definition initial : CandidatesState :=
  mkCandidatesState [] None (mkLoading false None)
                    (mkCandidatesFilters "" None "")
                    (mkPagination 1 50 0 0).



Definition setPagination (pagination : PaginationPatch) (state : CandidatesState)
  : CandidatesState :=
  mkCandidatesState (candidates state) (currentCandidate state)
                    (candidates_loading state) (candidates_filters state)
                    (pagination_spread (candidates_pagination state) pagination).

End CandidatesStore.

(** The toasts of the UI store. *)
Inductive ToastType := toast_success | toast_error | toast_warning | toast_info.

Record Toast := mkToast {
  toast_id : string;
  toast_title : string;
  toast_description : option string;
  toast_type : ToastType;
  toast_duration : Z;
}.

(** [addToast] of [useUIStore], for a toast without a duration of its own;
    [rnd] is the random id. *)
Definition addToast (rnd title description : string) (type : ToastType)
    (toasts : list Toast) : list Toast :=
  (toasts ++ [mkToast rnd title (Some description) type 5000])%list.

(** ** Queries and mutations (hooks/index.ts) *)

Record PaginatedResponse (T : Type) := mkPaginated {
  pr_data : option (list T);   (* [None]: not an array *)
  pr_total : Z;
  pr_page : Z;
  pr_pageSize : Z;
  pr_totalPages : Z;
}.
Arguments mkPaginated {T} _ _ _ _ _.
Arguments pr_data {T} _.
Arguments pr_total {T} _.
Arguments pr_page {T} _.
Arguments pr_pageSize {T} _.
Arguments pr_totalPages {T} _.

(** [Math.ceil(a / b)] for integers [a] and [b > 0]. *)
Definition ceil_div (a b : Z) : Z := - ((- a) / b).

(** The query cache, as far as the job hooks read and write it: the entry
    under the key [['jobs']], the entries under [['job', id]], and whether
    the queries under [['jobs']] have been invalidated. *)
Record QueryCache := mkQueryCache {
  jobs_query : option (PaginatedResponse Job);
  job_query : gmap string JobPatch;
  jobs_invalidated : bool;
}.

Record ClientState := mkClientState {
  jobsStore : JobsState;
  candidatesStore : CandidatesState;
  toasts : list Toast;
  queryCache : QueryCache;
}.

Definition with_jobsStore (f : JobsState → JobsState) (st : ClientState) : ClientState :=
  mkClientState (f (jobsStore st)) (candidatesStore st) (toasts st) (queryCache st).

Definition with_candidatesStore (f : CandidatesState → CandidatesState)
    (st : ClientState) : ClientState :=
  mkClientState (jobsStore st) (f (candidatesStore st)) (toasts st) (queryCache st).

Definition with_toasts (f : list Toast → list Toast) (st : ClientState) : ClientState :=
  mkClientState (jobsStore st) (candidatesStore st) (f (toasts st)) (queryCache st).

Definition with_queryCache (f : QueryCache → QueryCache) (st : ClientState) : ClientState :=
  mkClientState (jobsStore st) (candidatesStore st) (toasts st) (f (queryCache st)).

(** [queryClient.setQueryData(['jobs'], v)] *)
Definition set_jobs_query (v : PaginatedResponse Job) (c : QueryCache) : QueryCache :=
  mkQueryCache (Some v) (job_query c) (jobs_invalidated c).

(** [queryClient.setQueryData(['job', id], v)] *)
Definition set_job_query (id : string) (v : JobPatch) (c : QueryCache) : QueryCache :=
  mkQueryCache (jobs_query c) (<[id := v]> (job_query c)) (jobs_invalidated c).

(** [queryClient.invalidateQueries({ queryKey: ['jobs'] })] *)
Definition invalidate_jobs (c : QueryCache) : QueryCache :=
  mkQueryCache (jobs_query c) (job_query c) true.

(** The callbacks of a [useMutation], over the client state.  [V] are the
    variables, [D] the data of a successful commit, [C] the context that
    [onMutate] hands to the later callbacks. *)
Record MutationOptions (V D C : Type) := mkMutation {
  onMutate : V → ClientState → C * ClientState;
  onSuccess : D → V → C → ClientState → ClientState;
  onError : JsError → V → C → ClientState → ClientState;
  onSettled : ClientState → ClientState;
}.
Arguments onMutate {V D C} _ _ _.
Arguments onSuccess {V D C} _ _ _ _ _.
Arguments onError {V D C} _ _ _ _ _.
Arguments onSettled {V D C} _ _.

(** One mutation from issue to settlement: [onMutate], then the commit (the
    [mutationFn], a [withRetry] around an API call, whose outcome is
    [committed]), then [onSuccess] or [onError], then [onSettled]. *)
Definition mutate {V D C} (m : MutationOptions V D C) (variables : V)
    (committed : Outcome D) (st : ClientState) : ClientState :=
  let '(context, st1) := onMutate m variables st in
  match committed with
  | Resolved data => onSettled m (onSuccess m data variables context st1)
  | Rejected error => onSettled m (onError m error variables context st1)
  end.

Module Client.

(** The callback of [jobs.map] in [useReorderJobs.onMutate]. *)
Definition reorder_job (fromOrder toOrder : Z) (job : Job) : Job :=
  if decide (job_order job = fromOrder) then job_with_order job toOrder
  else if decide (fromOrder < toOrder ∧ job_order job > fromOrder ∧ job_order job ≤ toOrder) then
    job_with_order job (job_order job - 1)
  else if decide (fromOrder > toOrder ∧ job_order job >= toOrder ∧ job_order job < fromOrder) then
    job_with_order job (job_order job + 1)
  else job.

End Client.

Module Hooks.
Section WithUtils.

(** [getErrorMessage] of utils, which is not among the sources. *)
Variable getErrorMessage : JsError → string → string.

(** The first effect of [useJobs], run when the query has data. *)
Definition useJobs_effect (query_data : option (PaginatedResponse Job))
    (state : JobsState) : JobsState :=
  match query_data with
  | None => state
  | Some data =>
      let serverJobs := array_or_empty (pr_data data) in
      let currentJobs := jobs state in
      let optimisticJobs :=
        List.filter
          (λ job, negb (found
             (List.find (λ sj, bool_decide (job_id sj = job_id job)) serverJobs)))
          currentJobs in
      let mergedJobs := (serverJobs ++ optimisticJobs)%list in
      JobsStore.setPagination
        (mkPaginationPatch
           (Some (pr_page data)) (Some (pr_pageSize data))
           (Some (pr_total data + Z.of_nat (length optimisticJobs)))
           (Some (ceil_div (pr_total data + Z.of_nat (length optimisticJobs))
                           (pr_pageSize data))))
        (JobsStore.setJobs mergedJobs state)
  end.


(** The context of [useUpdateJob]: [{ previousJobs, previousJob }]. *)
Record UpdateJobContext := mkUpdateJobContext {
  uj_previousJobs : option (PaginatedResponse Job);
  uj_previousJob : option JobPatch;
}.

(** [useUpdateJob]; the variables are [{ id, updates }]. *)
Definition useUpdateJob (rnd : string)
  : MutationOptions (string * JobPatch) Job UpdateJobContext :=
  {| onMutate := λ '(id, updates) st,
       let previousJobs := jobs_query (queryCache st) in
       let previousJob := job_query (queryCache st) !! id in
       let st1 := with_jobsStore (JobsStore.updateJob id updates) st in
       let st2 := with_queryCache
                    (set_job_query id (object_spread previousJob updates)) st1 in
       (mkUpdateJobContext previousJobs previousJob, st2);
     onError := λ error '(id, _) context st,
       let st1 := match uj_previousJobs context with
                  | Some previousJobs =>
                      with_queryCache (set_jobs_query previousJobs) st
                  | None => st
                  end in
       let st2 := match uj_previousJob context with
                  | Some previousJob =>
                      with_queryCache (set_job_query id previousJob) st1
                  | None => st1
                  end in
       with_toasts
         (addToast rnd "Error" (getErrorMessage error "Failed to update job") toast_error)
         st2;
     onSettled := with_queryCache invalidate_jobs;
     onSuccess := λ _ _ _,
       with_toasts (addToast rnd "Success" "Job updated successfully" toast_success);
  |}.

(** [useReorderJobs]; the variables are [{ fromOrder, toOrder }], the
    context is [{ previousJobs }], and the data is what
    [jobsApi.reorderJobs] resolves to, [response.data]. *)
Definition useReorderJobs (rnd : string)
  : MutationOptions (Z * Z) (option (list Job)) (option (PaginatedResponse Job)) :=
  {| onMutate := λ '(fromOrder, toOrder) st,
       let previousJobs := jobs_query (queryCache st) in
       let st1 :=
         match previousJobs with
         | Some previous =>
             match pr_data previous with
             | Some data =>
                 let jobs := data in
                 match List.find (λ job, bool_decide (job_order job = fromOrder)) jobs with
                 | Some jobToMove =>
                     let optimisticJobs :=
                       Client.reorder_job fromOrder toOrder <$> jobs in
                     with_jobsStore (JobsStore.setJobs optimisticJobs) st
                 | None => st
                 end
             | None => st
             end
         | None => st
         end in
       (previousJobs, st1);
     onError := λ error _ context st,
       let st1 := match context with
                  | Some previousJobs =>
                      with_jobsStore
                        (JobsStore.setJobs (array_or_empty (pr_data previousJobs))) st
                  | None => st
                  end in
       with_toasts
         (addToast rnd "Error" "Failed to reorder jobs. Changes have been reverted."
                   toast_error)
         st1;
     onSettled := with_queryCache invalidate_jobs;
     onSuccess := λ reorderedJobs _ _,
       with_jobsStore (JobsStore.setJobs (array_or_empty reorderedJobs));
  |}.

(** [useDeleteJob]; the variable is the id, the context is that of
    [useUpdateJob], and [jobsApi.deleteJob] resolves to nothing. *)
Definition useDeleteJob (rnd : string)
  : MutationOptions string unit UpdateJobContext :=
  {| onMutate := λ id st,
       let previousJobs := jobs_query (queryCache st) in
       let previousJob := job_query (queryCache st) !! id in
       let currentJobs := jobs (jobsStore st) in
       let st1 :=
         match List.find (λ job, bool_decide (job_id job = id)) currentJobs with
         | Some jobToArchive => with_jobsStore (JobsStore.removeJob id) st
         | None => st
         end in
       (mkUpdateJobContext previousJobs previousJob, st1);
     onError := λ error id context st,
       let st1 := match uj_previousJobs context with
                  | Some previousJobs =>
                      with_queryCache (set_jobs_query previousJobs) st
                  | None => st
                  end in
       let st2 := match uj_previousJob context with
                  | Some previousJob =>
                      with_queryCache (set_job_query id previousJob) st1
                  | None => st1
                  end in
       with_toasts
         (addToast rnd "Error" (getErrorMessage error "Failed to archive job") toast_error)
         st2;
     onSettled := with_queryCache invalidate_jobs;
     onSuccess := λ _ _ _,
       with_toasts (addToast rnd "Success" "Job archived successfully" toast_success);
  |}.

End WithUtils.
End Hooks.

(** ** The other routes of the Simulated Backend *)

(** [Array.prototype.slice(start, end)] for integer arguments: a negative
    index counts from the end, and both are clamped to the array. *)
Definition js_slice {A} (l : list A) (start stop : Z) : list A :=
  let len := Z.of_nat (length l) in
  let from := if decide (start < 0) then Z.max (len + start) 0 else Z.min start len in
  let to := if decide (stop < 0) then Z.max (len + stop) 0 else Z.min stop len in
  take (Z.to_nat (Z.max (to - from) 0)) (drop (Z.to_nat from) l).

(** [String.prototype.includes] *)
Fixpoint includes (s sub : string) : bool :=
  String.prefix sub s
  || match s with
     | EmptyString => false
     | String _ s' => includes s' sub
     end.

(** [Array.prototype.sort] with a consistent comparator [c] (negative: the
    first argument sorts first), as a stable insertion sort. *)
Section StableSortWith.
Context {A : Type} (c : A → A → Z).

Fixpoint sort_insert_with (x : A) (l : list A) : list A :=
  match l with
  | [] => [x]
  | y :: l' => if decide (c x y ≤ 0) then x :: l else y :: sort_insert_with x l'
  end.

Definition sort_with (l : list A) : list A := foldr sort_insert_with [] l.
End StableSortWith.

(** The status names as they appear in query strings. *)
Definition status_name (st : JobStatus) : string :=
  match st with active => "active" | archived => "archived" end.

(** The query parameters of GET /jobs, as far as a [JobFilters] can set
    them; [None] is a parameter that is not sent.  [page] and [pageSize]
    are the results of [parseInt]. *)
Record JobsQueryParams := mkJobsQueryParams {
  qp_search : option string;
  qp_status : option string;
  qp_page : option Z;
  qp_pageSize : option Z;
  qp_sort : option SortField;
  qp_sortDirection : option SortDirection;
}.

(** A user as POST /auth/signup stores it, and a demo user of
    POST /auth/signin, which has no timestamps. *)
Record User := mkUser {
  user_id : string;
  user_name : string;
  user_email : string;
  user_password : string;
  user_role : string;
  user_createdAt : option string;
  user_updatedAt : option string;
}.

(** A user without the password: [const { password: _, ...userResponse }]. *)
Record UserResponse := mkUserResponse {
  ur_id : string;
  ur_name : string;
  ur_email : string;
  ur_role : string;
  ur_createdAt : option string;
  ur_updatedAt : option string;
}.

Definition without_password (u : User) : UserResponse :=
  mkUserResponse (user_id u) (user_name u) (user_email u) (user_role u)
                 (user_createdAt u) (user_updatedAt u).

(** The body of POST /auth/signup; a field that is missing is read as
    falsy, like the empty string. *)
Record SignupData := mkSignupData {
  su_name : string;
  su_email : string;
  su_password : string;
  su_role : string;
}.

Module Routes.
Import StorageService.

(** [paginate]; [pageSize] is not 0 (for 0 the division gives no
    integer). *)
Definition paginate {T} (items : list T) (page pageSize : Z) : PaginatedResponse T :=
  let offset := (page - 1) * pageSize in
  let paginatedItems := js_slice items offset (offset + pageSize) in
  mkPaginated (Some paginatedItems) (Z.of_nat (length items)) page pageSize
              (ceil_div (Z.of_nat (length items)) pageSize).

Section Listing.

(** Built-ins of JavaScript that GET /jobs relies on:
    [String.prototype.toLowerCase], [a < b] on strings, and
    [new Date(s).getTime()], where [None] is [NaN]. *)
Variable toLowerCase : string → string.
Variable string_lt : string → string → bool.
Variable getTime : string → option Z.

(** The callback of the search filter. *)
Definition matches_search (searchLower : string) (job : Job) : bool :=
  includes (toLowerCase (job_title job)) searchLower
  || includes (toLowerCase (job_description job)) searchLower
  || existsb (λ tag, includes (toLowerCase tag) searchLower) (job_tags job).

(** [aVal < bVal] for the values the sort reads from two jobs. *)
Definition sort_lt (sort : SortField) (a b : Job) : bool :=
  match sort with
  | sort_order => bool_decide (job_order a < job_order b)
  | sort_title => string_lt (job_title a) (job_title b)
  | sort_createdAt =>
      bool_decide (default 0 (getTime (job_createdAt a))
                   < default 0 (getTime (job_createdAt b)))
  end.

(** The comparator of [jobs.sort]. *)
Definition compare_jobs (sort : SortField) (sortDirection : SortDirection)
    (a b : Job) : Z :=
  match sortDirection with
  | desc => if sort_lt sort a b then 1 else if sort_lt sort b a then -1 else 0
  | asc => if sort_lt sort a b then -1 else if sort_lt sort b a then 1 else 0
  end.

(** The jobs that pass the filters of GET /jobs. *)
Definition filter_jobs (search status : string) (jobs : list Job) : list Job :=
  let jobs1 :=
    if decide (search = "") then jobs
    else List.filter (matches_search (toLowerCase search)) jobs in
  if decide (status = "all") then jobs1
  else List.filter (λ job, bool_decide (status_name (job_status job) = status)) jobs1.

(** GET /jobs *)
Definition get_jobs (now : string) (queryParams : JobsQueryParams)
    (jobsStore : gmap string Job) : PaginatedResponse Job :=
  let search := default "" (qp_search queryParams) in
  let status := default "all" (qp_status queryParams) in
  let sort := default sort_order (qp_sort queryParams) in
  let sortDirection := default asc (qp_sortDirection queryParams) in
  let jobs := filter_jobs search status (getAllJobs now jobsStore) in
  let sorted := sort_with (compare_jobs sort sortDirection) jobs in
  paginate sorted (default 1 (qp_page queryParams)) (default 10 (qp_pageSize queryParams)).

End Listing.

(** GET /jobs/:id *)
Definition get_job (id : string) (jobsStore : gmap string Job) : HttpResult Job :=
  match getJob id jobsStore with
  | None => Failure 404 "Job not found"
  | Some job => Success job
  end.

(** GET /candidates/:id *)
Definition get_candidate (id : string) (candidatesStore : gmap string Candidate)
  : HttpResult Candidate :=
  match getCandidate id candidatesStore with
  | None => Failure 404 "Candidate not found"
  | Some candidate => Success candidate
  end.

(** GET /candidates/:id/timeline *)
Definition get_candidate_timeline (id : string) (candidatesStore : gmap string Candidate)
  : HttpResult (list CandidateTimelineEvent) :=
  match getCandidate id candidatesStore with
  | None => Failure 404 "Candidate not found"
  | Some candidate => Success (candidate_timeline candidate)
  end.

(** DELETE /candidates/:id *)
Definition delete_candidates (id : string) (candidatesStore : gmap string Candidate)
  : HttpResult unit * gmap string Candidate :=
  (Success (), deleteCandidate id candidatesStore).

(** [StorageService.getUsers] and [saveUser], on the users table. *)
Definition getUsers (usersStore : gmap string User) : list User := iterate usersStore.

Definition saveUser (user : User) (usersStore : gmap string User) : gmap string User :=
  <[user_id user := user]> usersStore.

(** POST /auth/signup *)
Definition post_auth_signup (now rnd : string) (userData : SignupData)
    (usersStore : gmap string User) : HttpResult UserResponse * gmap string User :=
  if bool_decide (su_name userData = "") || bool_decide (su_email userData = "")
     || bool_decide (su_password userData = "") || bool_decide (su_role userData = "")
  then (Failure 400 "All fields are required", usersStore)
  else
    match List.find (λ user, bool_decide (user_email user = su_email userData))
                    (getUsers usersStore) with
    | Some existingUser => (Failure 400 "User with this email already exists", usersStore)
    | None =>
        let newUser :=
          mkUser rnd (su_name userData) (su_email userData) (su_password userData)
                 (if decide (su_role userData = "hr") then "hr" else "candidate")
                 (Some now) (Some now) in
        (Success (without_password newUser), saveUser newUser usersStore)
    end.

(** The demo users of POST /auth/signin. *)
Definition demoUsers : list User :=
  [mkUser "hr-demo-1" "HR Manager" "hr@talentflow.com" "password123" "hr" None None;
   mkUser "candidate-demo-1" "Jane Candidate" "candidate@example.com" "password123"
          "candidate" None None].

(** POST /auth/signin *)
Definition post_auth_signin (email password : string) (usersStore : gmap string User)
  : HttpResult UserResponse :=
  if bool_decide (email = "") || bool_decide (password = "")
  then Failure 400 "Email and password are required"
  else
    let matches := λ u, bool_decide (user_email u = email)
                        && bool_decide (user_password u = password) in
    match List.find matches (getUsers usersStore) with
    | Some user => Success (without_password user)
    | None =>
        match List.find matches demoUsers with
        | Some user => Success (without_password user)
        | None => Failure 401 "Invalid email or password"
        end
    end.

End Routes.

(** ** Assessments *)

Module Assessments.
Section WithSections.

(** The sections of an assessment, with their questions, are stored and
    returned as they are; the routes do not read them. *)
Context {Sections : Type}.

Record Assessment := mkAssessment {
  assessment_id : string;
  assessment_createdAt : string;
  assessment_updatedAt : string;
  assessment_jobId : string;
  assessment_title : string;
  assessment_description : option string;
  assessment_sections : Sections;
  assessment_isPublished : bool;
  assessment_timeLimit : option Z;
}.

(** [StorageService.getAllAssessments], [getAssessmentByJob],
    [saveAssessment] and [deleteAssessment]. *)
Definition getAllAssessments (assessmentsStore : gmap string Assessment)
  : list Assessment :=
  StorageService.iterate assessmentsStore.

Definition getAssessmentByJob (jobId : string) (assessmentsStore : gmap string Assessment)
  : option Assessment :=
  List.find (λ assessment, bool_decide (assessment_jobId assessment = jobId))
            (getAllAssessments assessmentsStore).

Definition saveAssessment (assessment : Assessment)
    (assessmentsStore : gmap string Assessment) : gmap string Assessment :=
  <[assessment_id assessment := assessment]> assessmentsStore.

Definition deleteAssessment (id : string) (assessmentsStore : gmap string Assessment)
  : gmap string Assessment :=
  delete id assessmentsStore.

(** GET /assessments/:jobId *)
Definition get_assessment (jobId : string) (assessmentsStore : gmap string Assessment)
  : HttpResult Assessment :=
  match getAssessmentByJob jobId assessmentsStore with
  | None => Failure 404 "Assessment not found"
  | Some assessment => Success assessment
  end.

(** PUT /assessments/:jobId *)
Definition put_assessment (now : string) (jobId : string) (assessmentData : Assessment)
    (assessmentsStore : gmap string Assessment)
  : HttpResult Assessment * gmap string Assessment :=
  let assessment :=
    mkAssessment (assessment_id assessmentData) (assessment_createdAt assessmentData)
                 now jobId (assessment_title assessmentData)
                 (assessment_description assessmentData)
                 (assessment_sections assessmentData)
                 (assessment_isPublished assessmentData)
                 (assessment_timeLimit assessmentData) in
  (Success assessment, saveAssessment assessment assessmentsStore).

(** DELETE /assessments/:id *)
Definition delete_assessment (id : string) (assessmentsStore : gmap string Assessment)
  : HttpResult unit * gmap string Assessment :=
  (Success (), deleteAssessment id assessmentsStore).

End WithSections.
Arguments Assessment : clear implicits.
End Assessments.

(** ** Specification-side definitions and sample data *)

(** The order a job holds after a move from [f] to [t], as a function of the
    order it held before: section 4.3 of the specification. *)
Definition shifted_order (f t o : Z) : Z :=
  if decide (o = f) then t
  else if decide (f < t ∧ f < o ∧ o ≤ t) then o - 1
  else if decide (t < f ∧ t ≤ o ∧ o < f) then o + 1
  else o.

(** The order values of the jobs the storage service reports. *)
Definition orders (now : string) (jobsStore : gmap string Job) : list Z :=
  job_order <$> StorageService.getAllJobs now jobsStore.

(** Equality of two jobs on every field but [updatedAt]. *)
Definition same_but_updatedAt (a b : Job) : Prop :=
  job_with_updatedAt a "" = job_with_updatedAt b "".

Definition sample_job (id : string) (o : Z) : Job :=
  mkJob id "2024-01-01T00:00:00.000Z" "2024-01-01T00:00:00.000Z"
        ("Job " +:+ id) ("job-" +:+ id) "A position" active [] o "Remote" full_time None.

Definition store_of (js : list Job) : gmap string Job :=
  StorageService.saveJobs js ∅.

(** Jobs A, B, C at orders 0, 1, 2. *)
Definition abc_store : gmap string Job :=
  store_of [sample_job "A" 0; sample_job "B" 1; sample_job "C" 2].

(** Jobs A, B, C at orders 0, 5, 10: unique orders with gaps. *)
Definition gap_store : gmap string Job :=
  store_of [sample_job "A" 0; sample_job "B" 5; sample_job "C" 10].

Definition t0 : string := "2024-06-01T12:00:00.000Z".
Definition t1 : string := "2024-06-01T12:00:01.000Z".

Definition id_orders (js : list Job) : list (string * Z) :=
  (λ j, (job_id j, job_order j)) <$> js.

(** A request to PATCH /candidates/:id, with the clock reading and the
    random draw of the handler run that serves it. *)
Record CandidateUpdate := mkCandidateUpdate {
  cu_now : string;
  cu_rnd : string;
  cu_body : CandidatePatch;
}.

(** A sequence of PATCH /candidates/:id requests for one id, served in call
    order; the table afterwards. *)
Fixpoint patch_candidates_seq (id : string) (updates : list CandidateUpdate)
    (candidatesStore : gmap string Candidate) : gmap string Candidate :=
  match updates with
  | [] => candidatesStore
  | u :: updates' =>
      patch_candidates_seq id updates'
        (Server.patch_candidates (cu_now u) (cu_rnd u) id (cu_body u) candidatesStore).2
  end.

(** The transitions a sequence of requested stages makes, from the stage
    held at the start. *)
Fixpoint transitions (current : CandidateStage) (requested : list CandidateStage)
  : list (CandidateStage * CandidateStage) :=
  match requested with
  | [] => []
  | s :: requested' => (current, s) :: transitions s requested'
  end.

(** Every request asks for a stage other than the one held when it is
    served. *)
Fixpoint stage_changing (current : CandidateStage) (requested : list CandidateStage)
  : Prop :=
  match requested with
  | [] => True
  | s :: requested' => s ≠ current ∧ stage_changing s requested'
  end.

(** What a timeline event records about a transition. *)
Definition event_transition (e : CandidateTimelineEvent)
  : TimelineEventType * option CandidateStage * option CandidateStage :=
  (event_type e, event_previousStage e, event_newStage e).

Definition only_stage (s : CandidateStage) : CandidatePatch :=
  mkCandidatePatch None None None None None None None (Some s) None None None None.

Definition sample_candidate (id : string) (st : CandidateStage) : Candidate :=
  mkCandidate id "2024-01-01T00:00:00.000Z" "2024-01-01T00:00:00.000Z"
              "Ada" "ada@example.com" None None st "A" None []
              [Server.applied_event "2024-01-01T00:00:00.000Z" "e0" st].

Definition sample_job_data (slug : string) : JobData :=
  mkJobData None "Engineer" slug "A position" active [] 3 "Remote" full_time None.

(** The delays of an exponential backoff that waits [n] times: the base
    delay, doubled at each attempt. *)
Definition backoff (delay : Z) (n : nat) : list Z :=
  (λ i, delay * 2 ^ Z.of_nat i) <$> seq 0 n.

(** An API function called through [apiCall] against a backend that gives
    the same answer every time. *)
Definition always_answers {T} (answer : HttpResult T) : nat → Outcome (FetchResponse T) :=
  λ _, apiCall (respond answer).

(** The records of the store that the server result does not have, by id.
    These are the records added optimistically and not yet returned by the
    server, and also any other record the store still holds from an earlier
    page or filter: the store does not tell the two apart. *)
Definition absent_from_server (server current : list Job) : list Job :=
  filter (λ job, job_id job ∉ job_id <$> server) current.




(** A client that shows jobs A and B, with A open, and has them cached. *)
Definition sample_page (js : list Job) : PaginatedResponse Job :=
  mkPaginated (Some js) (Z.of_nat (length js)) 1 10 1.

Definition sample_client : ClientState :=
  mkClientState
    (mkJobsState [sample_job "A" 0; sample_job "B" 1] (Some (sample_job "A" 0))
                 (mkLoading false None)
                 (mkJobsFilters "" status_all [] sort_order asc)
                 (mkPagination 1 10 2 1))
    CandidatesStore.initial
    []
    (mkQueryCache (Some (sample_page [sample_job "A" 0; sample_job "B" 1]))
                  {["A" := job_object (sample_job "A" 0)]}
                  false).

Definition rename (title : string) : JobPatch :=
  mkJobPatch None None None (Some title) None None None None None None None None.


(** The page numbers 1, ..., [n]. *)
Definition page_numbers (n : nat) : list Z := (λ k, Z.of_nat (S k)) <$> seq 0 n.

(** The items on one page. *)
Definition page_items {T} (items : list T) (pageSize page : Z) : list T :=
  array_or_empty (pr_data (Routes.paginate items page pageSize)).

(** The time spent waiting, in milliseconds. *)
Definition total_wait (waits : list Z) : Z := foldr Z.add 0 waits.

(** The body [{ status: 'archived' }]. *)
Definition archive_patch : JobPatch :=
  mkJobPatch None None None None None None (Some archived) None None None None None.

(** [x] comes before [y] in [l]. *)
Definition comes_before {A} (x y : A) (l : list A) : Prop :=
  ∃ l1 l2 l3, l = (l1 ++ x :: l2 ++ y :: l3)%list.

Definition sample_signup : SignupData :=
  mkSignupData "Ada" "ada@example.com" "S3cret" "admin".

(** [sub] occurs in [s]. *)
Definition occurs_in (sub s : string) : Prop :=
  ∃ pre post, s = pre +:+ sub +:+ post.

(** The search term, in lower case, is found in the title, the description
    or one of the tags of the job, each taken in lower case. *)
Definition search_hit (toLowerCase : string → string) (searchLower : string)
    (job : Job) : Prop :=
  includes (toLowerCase (job_title job)) searchLower = true
  ∨ includes (toLowerCase (job_description job)) searchLower = true
  ∨ Exists (λ tag, includes (toLowerCase tag) searchLower = true) (job_tags job).

(** The job passes the filters of a jobs listing: an empty search term
    lets every job pass, any other has to be found in the job; the status
    all lets every job pass, any other has to be the status of the job. *)
Definition passes_filters (toLowerCase : string → string) (search status : string)
    (job : Job) : Prop :=
  (search = "" ∨ search_hit toLowerCase (toLowerCase search) job)
  ∧ (status = "all" ∨ status_name (job_status job) = status).

#[global] Instance passes_filters_dec toLowerCase search status job :
  Decision (passes_filters toLowerCase search status job).
Proof. unfold passes_filters, search_hit. apply _. Defined.

(** The same query for another page. *)
Definition with_page (queryParams : JobsQueryParams) (page : Z) : JobsQueryParams :=
  mkJobsQueryParams (qp_search queryParams) (qp_status queryParams) (Some page)
                    (qp_pageSize queryParams) (qp_sort queryParams)
                    (qp_sortDirection queryParams).

Definition sample_assessment (id jobId : string) : Assessments.Assessment (list string) :=
  Assessments.mkAssessment id "2024-01-01T00:00:00.000Z" "2024-01-01T00:00:00.000Z"
                           jobId "Screening" None ["Basics"] false (Some 30).

(** ** Lists, sorting and the tables *)

(** Closes a decidable goal about concrete data by evaluation. *)
Ltac by_compute := apply (bool_decide_unpack _); by vm_compute.


Lemma List_filter_filter {A} (f : A → bool) (l : list A) :
  List.filter f l = filter (λ x, f x) l.
Proof.
  induction l as [|x l IH]; [done|].
  cbn [List.filter]. rewrite filter_cons, IH.
  destruct (f x); by case_decide.
Qed.

Lemma filter_none {A} (P : A → Prop) `{!∀ x, Decision (P x)} (l : list A) :
  (∀ x, x ∈ l → ¬ P x) → filter P l = [].
Proof.
  induction l as [|x l IH]; intros Hall; [done|].
  rewrite filter_cons_False by (apply Hall; left).
  apply IH. intros y Hy. apply Hall. by right.
Qed.

Lemma filter_all {A} (P : A → Prop) `{!∀ x, Decision (P x)} (l : list A) :
  (∀ x, x ∈ l → P x) → filter P l = l.
Proof.
  induction l as [|x l IH]; intros Hall; [done|].
  rewrite filter_cons_True by (apply Hall; left). f_equal. apply IH.
  intros y Hy. apply Hall. by right.
Qed.

Lemma List_find_Some_elem {A} (f : A → bool) (l : list A) x :
  List.find f l = Some x → x ∈ l ∧ f x = true.
Proof.
  induction l as [|y l IH]; [done|]. cbn [List.find].
  destruct (f y) eqn:Hy.
  - intros [= ->]. split; [left | done].
  - intros H. destruct (IH H). split; [by right | done].
Qed.

Lemma List_find_None_elem {A} (f : A → bool) (l : list A) :
  List.find f l = None ↔ ∀ x, x ∈ l → f x = false.
Proof.
  induction l as [|y l IH]; cbn [List.find].
  - split; [intros _ x Hx; inversion Hx | done].
  - destruct (f y) eqn:Hy.
    + split; [done|]. intros H. specialize (H y (list_elem_of_here _ _)). congruence.
    + rewrite IH. split.
      * intros H x Hx. apply elem_of_cons in Hx as [->|Hx]; auto.
      * intros H x Hx. apply H. by right.
Qed.

Lemma List_find_is_Some {A} (f : A → bool) (l : list A) x :
  x ∈ l → f x = true → is_Some (List.find f l).
Proof.
  intros Hx Hf. destruct (List.find f l) eqn:E; [by eexists|].
  rewrite List_find_None_elem in E. rewrite (E x Hx) in Hf. done.
Qed.

Lemma List_last_cons {A} (x : A) (l : list A) (d : A) :
  List.last (x :: l) d = List.last l x.
Proof.
  revert x d. induction l as [|y l IH]; intros x d; [done|].
  change (List.last (y :: l) d = List.last (y :: l) x). by rewrite !IH.
Qed.

Section SortFacts.
Context {A : Type} (key : A → Z).

Lemma sort_insert_Permutation x (l : list A) : sort_insert key x l ≡ₚ x :: l.
Proof.
  induction l as [|y l IH]; [done|]. cbn [sort_insert].
  case_decide; [done|]. rewrite IH. apply Permutation_swap.
Qed.

Lemma sort_by_Permutation (l : list A) : sort_by key l ≡ₚ l.
Proof.
  induction l as [|x l IH]; [done|].
  unfold sort_by in *. cbn [foldr]. by rewrite sort_insert_Permutation, IH.
Qed.
End SortFacts.

Section StorageFacts.
Import StorageService.

Lemma validJob_id now v : job_id (validJob now v) = job_id v.
Proof. done. Qed.

Lemma validJob_order now v : job_order (validJob now v) = job_order v.
Proof. done. Qed.

Lemma getAllJobs_Permutation now s :
  getAllJobs now s ≡ₚ validJob now <$> filter (λ v, valid_record v) (iterate s).
Proof. unfold getAllJobs. by rewrite sort_by_Permutation, List_filter_filter. Qed.

Lemma elem_of_iterate {V} (s : gmap string V) v :
  v ∈ iterate s ↔ ∃ k, s !! k = Some v.
Proof.
  unfold iterate. rewrite list_elem_of_fmap. split.
  - intros [[k v'] [-> H]]. exists k. by apply elem_of_map_to_list.
  - intros [k H]. exists (k, v). split; [done|]. by apply elem_of_map_to_list.
Qed.

(** The jobs reported for a table: the valid records, with defaults. *)
Lemma elem_of_getAllJobs now s j :
  j ∈ getAllJobs now s ↔
  ∃ k v, s !! k = Some v ∧ job_id v ≠ "" ∧ j = validJob now v.
Proof.
  rewrite getAllJobs_Permutation, list_elem_of_fmap. split.
  - intros [v [-> Hv]]. apply list_elem_of_filter in Hv as [Hval Hv].
    apply elem_of_iterate in Hv as [k Hk]. exists k, v.
    unfold valid_record in Hval. apply bool_decide_unpack in Hval. done.
  - intros (k & v & Hk & Hid & ->). exists v. split; [done|].
    apply list_elem_of_filter. split.
    + unfold valid_record. by apply bool_decide_pack.
    + apply elem_of_iterate. by exists k.
Qed.

Lemma keyed_lookup s k v : keyed s → s !! k = Some v → job_id v = k.
Proof. intros Hs Hk. by apply (Hs k v). Qed.

Lemma keyed_empty : keyed ∅.
Proof. apply map_Forall_empty. Qed.

Lemma keyed_saveJob j s : keyed s → keyed (saveJob j s).
Proof. intros Hs. by apply map_Forall_insert_2. Qed.

Lemma saveJobs_cons j js s : saveJobs (j :: js) s = saveJobs js (saveJob j s).
Proof. done. Qed.

Lemma keyed_saveJobs js s : keyed s → keyed (saveJobs js s).
Proof.
  revert s. induction js as [|j js IH]; intros s Hs; [done|].
  rewrite saveJobs_cons. apply IH. by apply keyed_saveJob.
Qed.

(** In a keyed table the records are pairwise distinct, and so are the ids
    of the jobs reported. *)
Lemma keyed_iterate_ids s : keyed s → job_id <$> iterate s = (map_to_list s).*1.
Proof.
  intros Hs. unfold iterate. rewrite <-list_fmap_compose.
  apply list_fmap_ext. intros i [k v] Hkv.
  apply list_elem_of_lookup_2, elem_of_map_to_list in Hkv. cbn.
  by apply (keyed_lookup s).
Qed.

Lemma keyed_NoDup_ids now s : keyed s → NoDup (job_id <$> getAllJobs now s).
Proof.
  intros Hs. rewrite getAllJobs_Permutation.
  rewrite <-list_fmap_compose.
  rewrite (list_fmap_ext (job_id ∘ validJob now) job_id) by done.
  assert (NoDup (job_id <$> iterate s)) as Hnd.
  { rewrite keyed_iterate_ids; [|done]. apply NoDup_fst_map_to_list. }
  revert Hnd. generalize (iterate s). intros l.
  induction l as [|v l IH]; [constructor|].
  rewrite fmap_cons. intros [Hv Hl]%NoDup_cons. rewrite filter_cons.
  case_decide; [|by apply IH].
  rewrite fmap_cons. apply NoDup_cons. split; [|by apply IH].
  intros Hin. apply Hv. apply list_elem_of_fmap in Hin as [w [Hw Hin]].
  apply list_elem_of_filter in Hin as [_ Hin].
  apply list_elem_of_fmap. by exists w.
Qed.

(** What a batch of writes leaves under a key. *)
Lemma saveJobs_lookup_notin js s k :
  k ∉ job_id <$> js → saveJobs js s !! k = s !! k.
Proof.
  revert s. induction js as [|j js IH]; intros s Hk; [done|].
  rewrite fmap_cons in Hk. apply not_elem_of_cons in Hk as [Hne Hk].
  rewrite saveJobs_cons, IH; [|done]. unfold saveJob. by rewrite lookup_insert_ne.
Qed.

Lemma saveJobs_lookup_in js s j :
  NoDup (job_id <$> js) → j ∈ js → saveJobs js s !! job_id j = Some j.
Proof.
  revert s. induction js as [|j' js IH]; intros s Hnd Hj; [inversion Hj|].
  rewrite fmap_cons in Hnd. apply NoDup_cons in Hnd as [Hj' Hnd].
  apply elem_of_cons in Hj as [->|Hj]; rewrite saveJobs_cons.
  - rewrite saveJobs_lookup_notin; [|done]. unfold saveJob. by rewrite lookup_insert_eq.
  - by apply IH.
Qed.

End StorageFacts.

(** ** The reorder computation *)

Section ReorderFacts.
Import StorageService.

Lemma server_reorder_order now f t j :
  job_order (Server.reorder_job now f t j) = shifted_order f t (job_order j).
Proof.
  unfold Server.reorder_job, shifted_order.
  repeat case_decide; cbn; lia.
Qed.

Lemma client_reorder_order f t j :
  job_order (Client.reorder_job f t j) = shifted_order f t (job_order j).
Proof.
  unfold Client.reorder_job, shifted_order.
  repeat case_decide; cbn; lia.
Qed.

Lemma server_reorder_id now f t j : job_id (Server.reorder_job now f t j) = job_id j.
Proof. unfold Server.reorder_job. by repeat case_decide. Qed.

Lemma client_server_same_but_updatedAt now f t j :
  same_but_updatedAt (Client.reorder_job f t j) (Server.reorder_job now f t j).
Proof.
  unfold same_but_updatedAt, Client.reorder_job, Server.reorder_job.
  by repeat case_decide.
Qed.

(** A move sends different orders to different orders. *)
#[local] Instance shifted_order_inj f t : Inj (=) (=) (shifted_order f t).
Proof. intros a b. unfold shifted_order. repeat case_decide; lia. Qed.

(** A move stays inside a set of orders that has no gap between the two
    positions. *)
Lemma shifted_order_closed f t (os : list Z) o :
  (∀ z, Z.min f t ≤ z ≤ Z.max f t → z ∈ os) →
  o ∈ os → shifted_order f t o ∈ os.
Proof.
  intros Hfull Ho. unfold shifted_order.
  repeat case_decide; try done; apply Hfull; lia.
Qed.

Lemma shifted_orders_NoDup f t (os : list Z) :
  NoDup os → NoDup (shifted_order f t <$> os).
Proof. apply NoDup_fmap_2, _. Qed.

Lemma shifted_orders_Permutation f t (os : list Z) :
  NoDup os →
  (∀ z, Z.min f t ≤ z ≤ Z.max f t → z ∈ os) →
  shifted_order f t <$> os ≡ₚ os.
Proof.
  intros Hnd Hfull. apply submseteq_length_Permutation.
  - apply NoDup_submseteq; [by apply shifted_orders_NoDup|].
    intros x [o [-> Ho]]%list_elem_of_fmap. by apply shifted_order_closed.
  - by rewrite length_fmap.
Qed.

(** Conversely, if a move from an occupied order leaves the set of orders
    as it was, there was no gap between the two positions. *)
Lemma shifted_orders_Permutation_inv f t (os : list Z) :
  f ∈ os → shifted_order f t <$> os ≡ₚ os →
  ∀ z, Z.min f t ≤ z ≤ Z.max f t → z ∈ os.
Proof.
  intros Hf Hp.
  assert (∀ o, o ∈ os → shifted_order f t o ∈ os) as Hclosed.
  { intros o Ho. rewrite <-Hp. apply list_elem_of_fmap. by exists o. }
  assert (t ∈ os) as Ht.
  { specialize (Hclosed f Hf). unfold shifted_order in Hclosed.
    by rewrite decide_True in Hclosed. }
  destruct (Z.lt_trichotomy f t) as [Hlt | [-> | Hgt]].
  - assert (∀ n : nat, f ≤ t - Z.of_nat n → t - Z.of_nat n ∈ os) as Hdown.
    { induction n as [|n IH]; intros Hn.
      - by replace (t - Z.of_nat 0) with t by lia.
      - specialize (Hclosed (t - Z.of_nat n) (IH ltac:(lia))).
        unfold shifted_order in Hclosed.
        rewrite decide_False, decide_True in Hclosed by lia.
        by replace (t - Z.of_nat (S n)) with (t - Z.of_nat n - 1) by lia. }
    intros z Hz. replace z with (t - Z.of_nat (Z.to_nat (t - z))) by lia.
    apply Hdown. lia.
  - intros z Hz. by replace z with t by lia.
  - assert (∀ n : nat, t + Z.of_nat n ≤ f → t + Z.of_nat n ∈ os) as Hup.
    { induction n as [|n IH]; intros Hn.
      - by replace (t + Z.of_nat 0) with t by lia.
      - specialize (Hclosed (t + Z.of_nat n) (IH ltac:(lia))).
        unfold shifted_order in Hclosed.
        rewrite decide_False, decide_False, decide_True in Hclosed by lia.
        by replace (t + Z.of_nat (S n)) with (t + Z.of_nat n + 1) by lia. }
    intros z Hz. replace z with (t + Z.of_nat (Z.to_nat (z - t))) by lia.
    apply Hup. lia.
Qed.

Lemma server_reorder_orders now f t (js : list Job) :
  job_order <$> (Server.reorder_job now f t <$> js)
  = shifted_order f t <$> (job_order <$> js).
Proof.
  rewrite <-!list_fmap_compose. apply list_fmap_ext.
  intros i j _. apply server_reorder_order.
Qed.

Lemma server_reorder_ids now f t (js : list Job) :
  job_id <$> (Server.reorder_job now f t <$> js) = job_id <$> js.
Proof.
  rewrite <-list_fmap_compose. apply list_fmap_ext.
  intros i j _. apply server_reorder_id.
Qed.

(** The handler finds a job to move exactly when some reported job holds
    the order. *)
Lemma find_order_is_Some now f s :
  f ∈ orders now s →
  is_Some (List.find (λ job, bool_decide (job_order job = f)) (getAllJobs now s)).
Proof.
  intros [j [-> Hj]]%list_elem_of_fmap.
  apply (List_find_is_Some _ _ j); [done|]. by apply bool_decide_eq_true.
Qed.

Lemma find_order_None now f s :
  f ∉ orders now s →
  List.find (λ job, bool_decide (job_order job = f)) (getAllJobs now s) = None.
Proof.
  intros Hf. apply List_find_None_elem. intros j Hj.
  apply bool_decide_eq_false. intros <-. apply Hf.
  apply list_elem_of_fmap. by exists j.
Qed.

(** After a batch of writes that covers every valid record of a keyed
    table, the table reports the batch. *)
Lemma getAllJobs_saveJobs now now' s (us : list Job) :
  keyed s →
  job_id <$> us = job_id <$> getAllJobs now s →
  job_order <$> getAllJobs now' (saveJobs us s) ≡ₚ job_order <$> us.
Proof.
  intros Hs Hids.
  assert (NoDup (job_id <$> us)) as Hnd.
  { rewrite Hids. by apply keyed_NoDup_ids. }
  assert (∀ u, u ∈ us → job_id u ≠ "") as Hvalid.
  { intros u Hu.
    assert (job_id u ∈ job_id <$> getAllJobs now s) as Hin.
    { rewrite <-Hids. apply list_elem_of_fmap. by exists u. }
    apply list_elem_of_fmap in Hin as [j [-> Hj]].
    apply elem_of_getAllJobs in Hj as (k & v & _ & Hv & ->). done. }
  assert (keyed (saveJobs us s)) as Hs' by by apply keyed_saveJobs.
  rewrite getAllJobs_Permutation, <-list_fmap_compose.
  rewrite (list_fmap_ext (job_order ∘ validJob now') job_order) by done.
  apply fmap_Permutation, NoDup_Permutation.
  - apply NoDup_filter. apply (NoDup_fmap_1 job_id).
    rewrite keyed_iterate_ids by done. apply NoDup_fst_map_to_list.
  - by apply (NoDup_fmap_1 job_id).
  - intros j. rewrite list_elem_of_filter, elem_of_iterate. split.
    + intros [Hval [k Hk]].
      destruct (decide (k ∈ job_id <$> us)) as [Hin|Hout].
      * apply list_elem_of_fmap in Hin as [u [-> Hu]].
        rewrite saveJobs_lookup_in in Hk by done. by simplify_eq.
      * rewrite saveJobs_lookup_notin in Hk by done.
        exfalso. apply Hout. rewrite Hids.
        apply list_elem_of_fmap. exists (validJob now j). split.
        -- symmetry. rewrite validJob_id. by apply (keyed_lookup s).
        -- apply elem_of_getAllJobs. exists k, j. split_and!; [done| |done].
           unfold valid_record in Hval. by apply bool_decide_unpack in Hval.
    + intros Hu. split.
      * unfold valid_record. apply bool_decide_pack. by apply Hvalid.
      * exists (job_id j). by apply saveJobs_lookup_in.
Qed.

End ReorderFacts.

(** ** Reorder: the backend handler *)

Section ReorderClaims.
Import StorageService.

Lemma keyed_store_of js : keyed (store_of js).
Proof. apply keyed_saveJobs, keyed_empty. Qed.

(** What the handler does when some reported job holds [f]. *)
Lemma patch_jobs_reorder_found now f t s :
  f ∈ orders now s →
  Server.patch_jobs_reorder now f t s
  = (Success (Server.reorder_job now f t <$> getAllJobs now s),
     saveJobs (Server.reorder_job now f t <$> getAllJobs now s) s).
Proof.
  intros Hf. unfold Server.patch_jobs_reorder.
  by destruct (find_order_is_Some now f s Hf) as [j ->].
Qed.

(** What the handler does when no reported job holds [f]. *)
Lemma patch_jobs_reorder_missing now f t s :
  f ∉ orders now s →
  Server.patch_jobs_reorder now f t s = (Failure 400 "Job not found", s).
Proof.
  intros Hf. unfold Server.patch_jobs_reorder.
  by rewrite (find_order_None now f s Hf).
Qed.

(** C1 (as amended).  For a keyed jobs table whose reported jobs have
    pairwise different orders, and a move from an occupied order [f] to
    an order [t ≠ f], PATCH /jobs/:id/reorder succeeds; the table then
    reports exactly the orders of the returned jobs, no two of them equal;
    the job that held [f] is stored under its id with order [t]; and
    the orders afterwards are a permutation of the orders before exactly
    when every order between [f] and [t] is occupied.  For jobs A, B, C
    at orders 0, 1, 2 the move from 0 to 2 returns B at 0, C at 1, A at 2
    and stores them so. *)
Theorem reorder_correct :
  (∀ now now' f t s,
      keyed s → NoDup (orders now s) → f ≠ t → f ∈ orders now s →
      ∃ updatedJobs s',
        Server.patch_jobs_reorder now f t s = (Success updatedJobs, s')
        ∧ orders now' s' ≡ₚ job_order <$> updatedJobs
        ∧ NoDup (orders now' s')
        ∧ (∀ j, j ∈ getAllJobs now s → job_order j = f →
             ∃ j', s' !! job_id j = Some j' ∧ j' ∈ updatedJobs ∧ job_order j' = t)
        ∧ ((∀ z, Z.min f t ≤ z ≤ Z.max f t → z ∈ orders now s) ↔
             orders now' s' ≡ₚ orders now s)
        ∧ keyed s')
  ∧ (let r := Server.patch_jobs_reorder t0 0 2 abc_store in
     id_orders <$> match r.1 with Success l => Some l | Failure _ _ => None end
       = Some [("B", 0); ("C", 1); ("A", 2)]
     ∧ job_order <$> r.2 !! "A" = Some 2
     ∧ job_order <$> r.2 !! "B" = Some 0
     ∧ job_order <$> r.2 !! "C" = Some 1).
Proof.
  split; [|by vm_compute].
  intros now now' f t s Hs Hnd _ Hf.
  eexists _, _. split; [by apply patch_jobs_reorder_found|].
  set (us := Server.reorder_job now f t <$> getAllJobs now s).
  assert (orders now' (saveJobs us s) ≡ₚ job_order <$> us) as Hafter.
  { apply (getAllJobs_saveJobs now); [done|]. apply server_reorder_ids. }
  assert (job_order <$> us = shifted_order f t <$> orders now s) as Hus.
  { apply server_reorder_orders. }
  split_and!.
  - done.
  - rewrite Hafter, Hus. by apply shifted_orders_NoDup.
  - intros j Hj Hjf. exists (Server.reorder_job now f t j).
    assert (Server.reorder_job now f t j ∈ us) as Hin.
    { apply list_elem_of_fmap. by exists j. }
    split_and!; [|done|].
    + rewrite <-(server_reorder_id now f t j). apply saveJobs_lookup_in; [|done].
      unfold us. rewrite server_reorder_ids. by apply keyed_NoDup_ids.
    + rewrite server_reorder_order, Hjf. unfold shifted_order. by case_decide.
  - rewrite Hafter, Hus. split.
    + intros Hfull. by apply shifted_orders_Permutation.
    + intros Hp. by apply (shifted_orders_Permutation_inv f t).
  - by apply keyed_saveJobs.
Qed.

Lemma reorder_correct_witness :
  ∃ updatedJobs s',
    Server.patch_jobs_reorder t0 0 2 abc_store = (Success updatedJobs, s')
    ∧ NoDup (orders t1 s')
    ∧ orders t1 s' ≡ₚ orders t0 abc_store.
Proof.
  destruct (proj1 reorder_correct t0 t1 0 2 abc_store) as (us & s' & H1 & _ & H2 & _ & H3 & _).
  - apply keyed_store_of.
  - by_compute.
  - lia.
  - by_compute.
  - exists us, s'. split_and!; [done..|]. apply H3.
    intros z Hz. assert (z = 0 ∨ z = 1 ∨ z = 2) as [-> | [-> | ->]] by lia;
      by_compute.
Defined.

(** Orders 0, 5, 10 and the move from 0 to 10: every premise of the
    claim holds, both positions are occupied, and the orders afterwards
    are 4, 9, 10. *)
Lemma reorder_gap_counterexample :
  keyed gap_store
  ∧ NoDup (orders t0 gap_store)
  ∧ 0 ≠ 10 ∧ 0 ∈ orders t0 gap_store ∧ 10 ∈ orders t0 gap_store
  ∧ ∃ updatedJobs s',
      Server.patch_jobs_reorder t0 0 10 gap_store = (Success updatedJobs, s')
      ∧ id_orders updatedJobs = [("B", 4); ("C", 9); ("A", 10)]
      ∧ ¬ (job_order <$> updatedJobs ≡ₚ orders t0 gap_store)
      ∧ ¬ (orders t1 s' ≡ₚ orders t0 gap_store).
Proof.
  split_and!.
  - apply keyed_store_of.
  - by_compute.
  - lia.
  - by_compute.
  - by_compute.
  - eexists _, _. split; [by vm_compute|]. split_and!.
    + by vm_compute.
    + intros Hp. assert (4 ∈ orders t0 gap_store) as Hin.
      { rewrite <-Hp. by_compute. }
      revert Hin. by_compute.
    + intros Hp. assert (4 ∈ orders t0 gap_store) as Hin.
      { rewrite <-Hp. by_compute. }
      revert Hin. by_compute.
Qed.

(** C2.  On every list of jobs and every pair of orders, the callback of
    the optimistic projection and the callback of the backend handler
    assign the same order to every job; the jobs they produce agree on
    every field but [updatedAt]. *)
Theorem reorder_client_server_agree now f t (js : list Job) :
  job_order <$> (Client.reorder_job f t <$> js)
    = job_order <$> (Server.reorder_job now f t <$> js)
  ∧ Forall2 same_but_updatedAt
      (Client.reorder_job f t <$> js) (Server.reorder_job now f t <$> js)
  ∧ job_order <$> (Client.reorder_job f t <$> js)
    = shifted_order f t <$> (job_order <$> js).
Proof.
  split_and!.
  - rewrite <-!list_fmap_compose. apply list_fmap_ext. intros i j _. cbn.
    by rewrite client_reorder_order, server_reorder_order.
  - apply Forall2_fmap, Forall_Forall2_diag, Forall_forall.
    intros j _. apply client_server_same_but_updatedAt.
  - rewrite <-!list_fmap_compose. apply list_fmap_ext. intros i j _.
    apply client_reorder_order.
Qed.

(** C8 (the code at the failing input).  With jobs at orders 0, 1, 2 and
    a move from order 7, the reorder handler leaves the table as it was
    and answers with status 400 and the message of the 404 answers of
    its sibling handlers, which PATCH /jobs/:id gives for an id that is
    not stored. *)
Theorem reorder_missing_status :
  Server.patch_jobs_reorder t0 7 0 abc_store = (Failure 400 "Job not found", abc_store)
  ∧ Server.patch_jobs t0 "missing" empty_job_patch abc_store
    = (Failure 404 "Job not found", abc_store).
Proof.
  split.
  - apply patch_jobs_reorder_missing. by_compute.
  - unfold Server.patch_jobs, getJob.
    replace (abc_store !! "missing") with (@None Job) by by vm_compute. done.
Qed.

End ReorderClaims.

(** ** Jobs and candidates: the backend handlers *)

Section BackendClaims.
Import StorageService.

(** A stored job with an id and a slug is reported with that slug. *)
Lemma stored_job_reported now s k v :
  s !! k = Some v → job_id v ≠ "" → job_slug v ≠ "" →
  ∃ j, j ∈ getAllJobs now s ∧ job_slug j = job_slug v ∧ job_id j = job_id v.
Proof.
  intros Hk Hid Hslug. exists (validJob now v). split_and!; [|cbn|done].
  - apply elem_of_getAllJobs. by exists k, v.
  - unfold str_or. by case_decide.
Qed.

(** POST /jobs when [getJobBySlug] finds a job. *)
Lemma post_jobs_conflict now rnd jobData s existing :
  existing ∈ getAllJobs now s →
  jd_slug jobData = job_slug existing →
  Server.post_jobs now rnd jobData s = (Failure 400 "Slug already exists", s).
Proof.
  intros Hin Hslug. unfold Server.post_jobs, getJobBySlug.
  destruct (List_find_is_Some
              (λ job, bool_decide (job_slug job = jd_slug jobData))
              (getAllJobs now s) existing Hin) as [j ->]; [|done].
  by apply bool_decide_eq_true.
Qed.

(** C7 (as amended).  When the slug of the job to create is not empty and
    is the slug of an existing job, a record of the jobs table that has
    an id, POST /jobs answers 400 "Slug already exists" and the jobs table
    is unchanged, so no new record is persisted.  The same holds whenever
    the slug is the one the storage service reports for a job. *)
Theorem create_job_slug_conflict now rnd jobData s k existing :
  s !! k = Some existing → job_id existing ≠ "" →
  jd_slug jobData = job_slug existing → jd_slug jobData ≠ "" →
  Server.post_jobs now rnd jobData s = (Failure 400 "Slug already exists", s)
  ∧ (∀ reported, reported ∈ getAllJobs now s → job_slug reported = jd_slug jobData →
       Server.post_jobs now rnd jobData s = (Failure 400 "Slug already exists", s)).
Proof.
  intros Hk Hid Heq Hslug. split.
  - destruct (stored_job_reported now s k existing Hk Hid) as (j & Hj & Hjs & _);
      [congruence|].
    apply (post_jobs_conflict now rnd jobData s j); [done|congruence].
  - intros j Hj Hjs. by apply (post_jobs_conflict now rnd jobData s j).
Qed.

Lemma create_job_slug_conflict_witness :
  Server.post_jobs t0 "r4nd0m" (sample_job_data "job-B") abc_store
  = (Failure 400 "Slug already exists", abc_store).
Proof.
  apply (create_job_slug_conflict t0 "r4nd0m" (sample_job_data "job-B") abc_store
           "B" (sample_job "B" 1)).
  - by vm_compute.
  - by vm_compute.
  - reflexivity.
  - by vm_compute.
Defined.

(** Two jobs created with the empty slug, one after the other, on an empty
    table: the second creation succeeds although the first job is stored
    with the same slug, and it adds a record. *)
Lemma create_job_empty_slug_counterexample :
  job_slug <$> (Server.post_jobs t0 "id1" (sample_job_data "") ∅).2 !! "id1" = Some ""
  ∧ jd_slug (sample_job_data "") = ""
  ∧ (∃ job, (Server.post_jobs t1 "id2" (sample_job_data "")
               (Server.post_jobs t0 "id1" (sample_job_data "") ∅).2).1 = Success job
            ∧ job_slug job = "")
  ∧ (Server.post_jobs t1 "id2" (sample_job_data "")
       (Server.post_jobs t0 "id1" (sample_job_data "") ∅).2).2
    ≠ (Server.post_jobs t0 "id1" (sample_job_data "") ∅).2
  ∧ job_slug <$> (Server.post_jobs t1 "id2" (sample_job_data "")
                    (Server.post_jobs t0 "id1" (sample_job_data "") ∅).2).2 !! "id2"
    = Some "".
Proof.
  split_and!.
  - by vm_compute.
  - reflexivity.
  - eexists. split; by vm_compute.
  - intros Heq. apply (f_equal (λ m : gmap string Job, m !! "id2")) in Heq.
    revert Heq. by vm_compute.
  - by vm_compute.
Qed.

(** X23.  The handlers that write the jobs table keep it keyed by id:
    when every record is stored under its own id before POST /jobs,
    PATCH /jobs/:id, PATCH /jobs/:id/reorder or DELETE /jobs/:id, every
    record is stored under its own id afterwards. *)
Lemma handlers_keep_keyed now rnd id f t jobData updateData s :
  keyed s →
  keyed (Server.post_jobs now rnd jobData s).2
  ∧ keyed (Server.patch_jobs now id updateData s).2
  ∧ keyed (Server.patch_jobs_reorder now f t s).2
  ∧ keyed (Server.delete_jobs now id s).2.
Proof.
  intros Hs. split_and!.
  - unfold Server.post_jobs. destruct (getJobBySlug _ _ _); [done|].
    by apply keyed_saveJob.
  - unfold Server.patch_jobs. destruct (getJob _ _); [|done]. by apply keyed_saveJob.
  - unfold Server.patch_jobs_reorder. destruct (List.find _ _); [|done].
    by apply keyed_saveJobs.
  - unfold Server.delete_jobs. destruct (getJob _ _); [|done]. by apply keyed_saveJob.
Qed.

(** X24.  The handlers that write the candidates table keep it keyed by
    id: when every candidate is stored under its own id before
    POST /candidates or PATCH /candidates/:id, every candidate is stored
    under its own id afterwards. *)
Lemma handlers_keep_keyed_candidates now rnd1 rnd2 id candidateData updateData s :
  keyed_candidates s →
  keyed_candidates (Server.post_candidates now rnd1 rnd2 candidateData s).2
  ∧ keyed_candidates (Server.patch_candidates now rnd1 id updateData s).2.
Proof.
  intros Hs. split.
  - by apply map_Forall_insert_2.
  - unfold Server.patch_candidates. destruct (getCandidate _ _); [|done].
    by apply map_Forall_insert_2.
Qed.

(** C9.  For a job stored under its id, DELETE /jobs/:id succeeds and
    stores, under the same key, the job with status archived and
    [updatedAt] set to the time of the call; [createdAt] and the other
    fields are as before, and every other key of the table is as
    before. *)
Theorem delete_job_archives now id s j :
  s !! id = Some j → job_id j = id →
  ∃ archivedJob s',
    Server.delete_jobs now id s = (Success archivedJob, s')
    ∧ s' !! id = Some archivedJob
    ∧ job_status archivedJob = archived
    ∧ job_updatedAt archivedJob = now
    ∧ job_createdAt archivedJob = job_createdAt j
    ∧ archivedJob = mkJob (job_id j) (job_createdAt j) now (job_title j) (job_slug j)
                          (job_description j) archived (job_tags j) (job_order j)
                          (job_location j) (job_type j) (job_salary j)
    ∧ (∀ k, k ≠ id → s' !! k = s !! k)
    ∧ dom s' = dom s.
Proof.
  intros Hj Hid. unfold Server.delete_jobs, getJob. rewrite Hj.
  eexists _, _. split; [done|]. unfold saveJob. cbn [job_id job_with_updatedAt].
  cbn [job_id job_with_status]. rewrite Hid. split_and!; try done.
  - by rewrite lookup_insert_eq.
  - by rewrite <-Hid.
  - intros k Hk. by rewrite lookup_insert_ne.
  - rewrite dom_insert_L. apply elem_of_dom_2 in Hj.
    apply subseteq_union_1_L. by apply singleton_subseteq_l.
Qed.

Lemma delete_job_archives_witness :
  ∃ archivedJob s',
    Server.delete_jobs t1 "A" abc_store = (Success archivedJob, s')
    ∧ s' !! "A" = Some archivedJob
    ∧ job_status archivedJob = archived
    ∧ job_updatedAt archivedJob = t1.
Proof.
  destruct (delete_job_archives t1 "A" abc_store (sample_job "A" 0))
    as (a & s' & H1 & H2 & H3 & H4 & _).
  - by vm_compute.
  - reflexivity.
  - by exists a, s'.
Defined.

(** C10.  POST /candidates stores, under the id of the candidate it
    returns, a candidate with no notes and a timeline of one event: a
    stage change to the submitted stage, with no previous stage.  Notes
    and a timeline in the body do not reach the stored candidate. *)
Theorem create_candidate_baseline now rnd1 rnd2 candidateData s :
  ∃ candidate s' e,
    Server.post_candidates now rnd1 rnd2 candidateData s = (Success candidate, s')
    ∧ s' !! candidate_id candidate = Some candidate
    ∧ candidate_stage candidate = cd_stage candidateData
    ∧ candidate_notes candidate = []
    ∧ candidate_timeline candidate = [e]
    ∧ event_type e = stage_change
    ∧ event_newStage e = Some (cd_stage candidateData)
    ∧ event_previousStage e = None.
Proof.
  unfold Server.post_candidates. eexists _, _, _. split; [done|].
  split_and!; try done. unfold saveCandidate. by rewrite lookup_insert_eq.
Qed.

(** One stage-changing request whose body leaves the id alone. *)
Lemma patch_candidates_stage_change now rnd id body s c st :
  s !! id = Some c → candidate_id c = id →
  cp_stage body = Some st → st ≠ candidate_stage c →
  (cp_id body = None ∨ cp_id body = Some id) →
  ∃ c', (Server.patch_candidates now rnd id body s).2 !! id = Some c'
        ∧ candidate_id c' = id
        ∧ candidate_stage c' = st
        ∧ candidate_timeline c'
          = (candidate_timeline c
               ++ [Server.moved_event now rnd (candidate_stage c) st])%list.
Proof.
  intros Hc Hid Hst Hne Hbody.
  unfold Server.patch_candidates, getCandidate. rewrite Hc, Hst.
  rewrite decide_True by done. cbn [snd]. unfold saveCandidate.
  assert (spread (candidate_id c) (cp_id body) = id) as Hkey.
  { destruct Hbody as [-> | ->]; [done|]. done. }
  cbn [candidate_id candidate_with_updatedAt candidate_with_timeline candidate_spread].
  rewrite Hkey, lookup_insert_eq. eexists. split; [done|].
  cbn. by rewrite Hst.
Qed.

(** C6 (as amended).  Let a candidate be stored under its id, and let
    [M] requests to PATCH /candidates/:id be served in order, each
    asking for a stage other than the one held when it is served, and
    none carrying an id other than the candidate's.  Then the stored
    timeline is the old one followed by exactly [M] events, one per
    request in call order (the k-th event carries the random id and the
    clock reading of the k-th request), each of type stage_change with
    the stage held before the request as previous stage and the stage
    asked for as new stage; and the stored stage is the last one asked
    for. *)
Theorem stage_updates_timeline id (updates : list CandidateUpdate)
    (requested : list CandidateStage) s c :
  s !! id = Some c → candidate_id c = id →
  (cp_stage ∘ cu_body) <$> updates = Some <$> requested →
  stage_changing (candidate_stage c) requested →
  Forall (λ u, cp_id (cu_body u) = None ∨ cp_id (cu_body u) = Some id) updates →
  ∃ c' events,
    patch_candidates_seq id updates s !! id = Some c'
    ∧ candidate_timeline c' = (candidate_timeline c ++ events)%list
    ∧ length events = length updates
    ∧ event_id <$> events = cu_rnd <$> updates
    ∧ event_createdAt <$> events = cu_now <$> updates
    ∧ event_transition <$> events
      = (λ '(p, n), (stage_change, Some p, Some n))
          <$> transitions (candidate_stage c) requested
    ∧ candidate_stage c' = List.last requested (candidate_stage c).
Proof.
  revert requested s c.
  induction updates as [|u updates IH]; intros requested s c Hc Hid Hreq Hchg Hids.
  - destruct requested; [|done]. exists c, []. cbn. by rewrite app_nil_r.
  - destruct requested as [|st requested]; [done|].
    rewrite !fmap_cons in Hreq. injection Hreq as Hst Hreq. cbn in Hst.
    destruct Hchg as [Hne Hchg]. apply Forall_cons in Hids as [Hu Hids].
    destruct (patch_candidates_stage_change (cu_now u) (cu_rnd u) id (cu_body u)
                s c st Hc Hid Hst Hne Hu) as (c1 & Hc1 & Hid1 & Hst1 & Htl1).
    destruct (IH requested _ c1 Hc1 Hid1 Hreq) as (c' & evs & H1 & H2 & H3 & H4 & H5 & H6 & H7).
    { by rewrite Hst1. }
    { done. }
    exists c', (Server.moved_event (cu_now u) (cu_rnd u) (candidate_stage c) st :: evs).
    cbn [patch_candidates_seq]. split_and!.
    + done.
    + rewrite H2, Htl1. by rewrite <-app_assoc.
    + cbn. by rewrite H3.
    + cbn. by rewrite H4.
    + cbn. by rewrite H5.
    + cbn [transitions]. rewrite !fmap_cons, H6, Hst1. done.
    + rewrite H7, Hst1. symmetry. apply List_last_cons.
Qed.

Lemma stage_updates_timeline_witness :
  ∃ c' events,
    patch_candidates_seq "c1"
      [mkCandidateUpdate t0 "e1" (only_stage tech);
       mkCandidateUpdate t1 "e2" (only_stage screen)]
      (saveCandidate (sample_candidate "c1" screen) ∅) !! "c1" = Some c'
    ∧ candidate_timeline c'
      = (candidate_timeline (sample_candidate "c1" screen) ++ events)%list
    ∧ length events = 2%nat
    ∧ event_transition <$> events
      = [(stage_change, Some screen, Some tech); (stage_change, Some tech, Some screen)]
    ∧ candidate_stage c' = screen.
Proof.
  destruct (stage_updates_timeline "c1"
              [mkCandidateUpdate t0 "e1" (only_stage tech);
               mkCandidateUpdate t1 "e2" (only_stage screen)]
              [tech; screen]
              (saveCandidate (sample_candidate "c1" screen) ∅)
              (sample_candidate "c1" screen))
    as (c' & evs & H1 & H2 & H3 & _ & _ & H6 & H7).
  - by vm_compute.
  - reflexivity.
  - reflexivity.
  - cbn. split_and!; done.
  - repeat constructor.
  - by exists c', evs.
Defined.

(** A request that asks for another stage and carries another id: the
    handler files the result under the other id, and the candidate
    stored under the id of the request keeps its stage and its
    timeline. *)
Lemma stage_update_other_id_counterexample :
  let c := sample_candidate "c1" screen in
  let s := saveCandidate c ∅ in
  let body := mkCandidatePatch (Some "c2") None None None None None None
                               (Some tech) None None None None in
  let s' := patch_candidates_seq "c1" [mkCandidateUpdate t0 "e1" body] s in
  s !! "c1" = Some c
  ∧ cp_stage body = Some tech ∧ tech ≠ candidate_stage c
  ∧ s' !! "c1" = Some c
  ∧ ¬ (∃ c' e, s' !! "c1" = Some c'
               ∧ candidate_timeline c' = (candidate_timeline c ++ [e])%list)
  ∧ ¬ (∃ c', s' !! "c1" = Some c' ∧ candidate_stage c' = tech).
Proof.
  cbn zeta.
  assert (patch_candidates_seq "c1"
            [mkCandidateUpdate t0 "e1"
               (mkCandidatePatch (Some "c2") None None None None None None
                                 (Some tech) None None None None)]
            (saveCandidate (sample_candidate "c1" screen) ∅) !! "c1"
          = Some (sample_candidate "c1" screen)) as Hafter by by vm_compute.
  split_and!.
  - by vm_compute.
  - reflexivity.
  - discriminate.
  - exact Hafter.
  - intros (c' & e & Hc' & Htl). rewrite Hafter in Hc'. injection Hc' as <-.
    by apply (f_equal length) in Htl.
  - intros (c' & Hc' & Hst). rewrite Hafter in Hc'. by injection Hc' as <-.
Qed.

End BackendClaims.

(** ** The retry wrapper *)

Section RetryClaims.
Context {T : Type}.
Implicit Types (fn : nat → Outcome T) (delay : Z).

(** No error that [apiCall] throws makes [withRetry] give up. *)
Lemma apiCall_error_retried {R} (fetched : FetchOutcome R) e :
  apiCall fetched = Rejected e → gives_up e = false.
Proof.
  unfold apiCall. destruct fetched as [m|r]; [by intros [= <-]|].
  destruct (resp_ok r); [done|]. by intros [= <-].
Qed.

(** A call that succeeds at once is not repeated. *)
Lemma withRetry_success fn maxRetries delay v :
  fn 0%nat = Resolved v → withRetry fn maxRetries delay = (Resolved v, []).
Proof. intros H. unfold withRetry. destruct maxRetries; cbn; by rewrite H. Qed.

(** An [ApiError] with a status below 500 ends the loop where it is
    thrown. *)
Lemma withRetry_loop_gives_up fn delay i remaining m st :
  fn i = Rejected (ApiError m (Some st)) → st ≠ 0 → st < 500 →
  withRetry_loop fn delay i remaining = (Rejected (ApiError m (Some st)), []).
Proof.
  intros H H0 H500. destruct remaining; cbn; rewrite H; [done|].
  cbn. by rewrite !bool_decide_eq_true_2.
Qed.

(** While every call fails with an error that is not given up on, the
    loop runs to its last iteration, waiting before each further call. *)
Lemma withRetry_loop_exhausts fn delay i remaining :
  (∀ k, ∃ e, fn k = Rejected e ∧ gives_up e = false) →
  ∃ e, fn (i + remaining)%nat = Rejected e
       ∧ withRetry_loop fn delay i remaining
         = (Rejected (handleApiError e),
            (λ k, delay * 2 ^ Z.of_nat k) <$> seq i remaining).
Proof.
  intros Hfail. revert i. induction remaining as [|r IH]; intros i.
  - destruct (Hfail i) as (e & He & _). exists e. rewrite Nat.add_0_r.
    split; [done|]. cbn. by rewrite He.
  - destruct (Hfail i) as (e & He & Hg).
    destruct (IH (S i)) as (e' & He' & Hloop). exists e'.
    replace (i + S r)%nat with (S i + r)%nat by lia. split; [done|].
    cbn [withRetry_loop]. rewrite He, Hg, Hloop. done.
Qed.

(** The waits of a run are an initial segment of the backoff sequence,
    and there are at most [maxRetries] of them. *)
Lemma withRetry_loop_waits fn delay i remaining :
  ∃ n, (n ≤ remaining)%nat
       ∧ (withRetry_loop fn delay i remaining).2
         = (λ k, delay * 2 ^ Z.of_nat k) <$> seq i n.
Proof.
  revert i. induction remaining as [|r IH]; intros i; cbn [withRetry_loop].
  - exists 0%nat. split; [done|]. by destruct (fn i).
  - destruct (fn i) as [v|e]; [exists 0%nat; split; [lia|done]|].
    destruct (gives_up e); [exists 0%nat; split; [lia|done]|].
    destruct (IH (S i)) as (n & Hn & Hw).
    destruct (withRetry_loop fn delay (S i) r) as [res ws] eqn:E.
    exists (S n). split; [lia|]. cbn in *. by rewrite Hw.
Qed.

Lemma withRetry_backoff fn maxRetries delay :
  ∃ n, (n ≤ maxRetries)%nat ∧ (withRetry fn maxRetries delay).2 = backoff delay n.
Proof. apply withRetry_loop_waits. Qed.

End RetryClaims.

(** C5 (the code at the failing input).  An API function that goes through
    [apiCall], retried with the defaults against a backend that answers
    404, 400 or 401 every time, is called four times, with waits of 1000,
    2000 and 4000 ms, before the error reaches the caller: [apiCall] throws
    a plain [Error] without a status, so the test on the status in
    [withRetry] does not apply.  An [ApiError] that carries such a status
    is rethrown at once, and the waits of every run are an initial segment
    of the doubling sequence, at most [maxRetries] long. *)
Theorem withRetry_retries_client_errors :
  withRetry_default (always_answers (Failure 404 "Job not found" : HttpResult Job))
    = (Rejected (ApiError "Job not found" None), [1000; 2000; 4000])
  ∧ withRetry_default (always_answers (Failure 400 "Slug already exists" : HttpResult Job))
    = (Rejected (ApiError "Slug already exists" None), [1000; 2000; 4000])
  ∧ withRetry_default (always_answers (Failure 401 "Session expired" : HttpResult Job))
    = (Rejected (ApiError "Session expired" None), [1000; 2000; 4000])
  ∧ attempts (withRetry_default
                (always_answers (Failure 404 "Job not found" : HttpResult Job))) = 4%nat
  ∧ withRetry_default (λ _, Rejected (ApiError "Job not found" (Some 404)) : Outcome Job)
    = (Rejected (ApiError "Job not found" (Some 404)), [])
  ∧ (∀ (fn : nat → Outcome Job) maxRetries delay,
        ∃ n, (n ≤ maxRetries)%nat
             ∧ (withRetry fn maxRetries delay).2 = backoff delay n).
Proof.
  split_and!; try by vm_compute.
  intros fn maxRetries delay. apply withRetry_backoff.
Qed.

(** Every failing API call is retried to the ceiling, whatever the status
    of the answers. *)
Lemma withRetry_apiCall_exhausts {T} (fetches : nat → FetchOutcome T) maxRetries delay :
  (∀ k, ∃ e, apiCall (fetches k) = Rejected e) →
  ∃ e, withRetry (λ k, apiCall (fetches k)) maxRetries delay
       = (Rejected e, backoff delay maxRetries).
Proof.
  intros Hfail.
  destruct (withRetry_loop_exhausts (λ k, apiCall (fetches k)) delay 0 maxRetries)
    as (e & _ & Hloop).
  - intros k. destruct (Hfail k) as [e He]. exists e. split; [done|].
    by apply (apiCall_error_retried (fetches k)).
  - by exists (handleApiError e).
Qed.

(** ** Mutations and the Synchronous UI Store *)

Section MutationClaims.
Variable getErrorMessage : JsError → string → string.

(** After a failed [useUpdateJob] the jobs store holds the optimistic
    update: [onError] writes to the query cache and the toasts only. *)
Lemma useUpdateJob_failure_store rnd id updates error st :
  jobsStore (mutate (Hooks.useUpdateJob getErrorMessage rnd) (id, updates)
                    (Rejected error) st)
  = JobsStore.updateJob id updates (jobsStore st).
Proof.
  unfold mutate. cbn.
  destruct (jobs_query (queryCache st)), (job_query (queryCache st) !! id); done.
Qed.

(** After a failed [useReorderJobs] the jobs of the store are the cached
    list, when there is a cache entry under [['jobs']], and are untouched
    when there is none. *)
Lemma useReorderJobs_failure_store rnd f t error st :
  jobsStore (mutate (Hooks.useReorderJobs rnd) (f, t) (Rejected error) st)
  = match jobs_query (queryCache st) with
    | Some previousJobs =>
        JobsStore.setJobs (array_or_empty (pr_data previousJobs)) (jobsStore st)
    | None => jobsStore st
    end.
Proof.
  unfold mutate. cbn.
  destruct (jobs_query (queryCache st)) as [pj|]; [|done].
  destruct (pr_data pj) as [data|]; [|done].
  by destruct (List.find _ data).
Qed.

(** So a failed reorder restores the store when the store showed the
    cached list. *)
Lemma useReorderJobs_failure_restores rnd f t error st previousJobs :
  jobs_query (queryCache st) = Some previousJobs →
  jobs (jobsStore st) = array_or_empty (pr_data previousJobs) →
  jobsStore (mutate (Hooks.useReorderJobs rnd) (f, t) (Rejected error) st)
  = jobsStore st.
Proof.
  intros Hq Hjobs. rewrite useReorderJobs_failure_store, Hq, <-Hjobs.
  by destruct (jobsStore st).
Qed.

(** C3 (the code at the failing input).  The client shows jobs A and B
    with A open; renaming A fails.  After settlement the store still
    shows the new title, in the list and in the open job: it is the
    optimistic state, not the state before the mutation.  The query
    cache entries are the ones before. *)
Theorem update_job_failure_not_rolled_back rnd error :
  let st' := mutate (Hooks.useUpdateJob getErrorMessage rnd)
                    ("A", rename "Renamed") (Rejected error) sample_client in
  jobsStore st' ≠ jobsStore sample_client
  ∧ jobsStore st' = JobsStore.updateJob "A" (rename "Renamed") (jobsStore sample_client)
  ∧ job_title <$> jobs (jobsStore st') = ["Renamed"; "Job B"]
  ∧ job_title <$> jobs (jobsStore sample_client) = ["Job A"; "Job B"]
  ∧ job_title <$> currentJob (jobsStore st') = Some "Renamed"
  ∧ jobs_query (queryCache st') = jobs_query (queryCache sample_client)
  ∧ job_query (queryCache st') !! "A" = job_query (queryCache sample_client) !! "A".
Proof.
  cbn zeta. rewrite useUpdateJob_failure_store.
  split_and!; try done; by vm_compute.
Qed.

End MutationClaims.

(** ** Merge on read *)

Section MergeClaims.

(** The filter of [useJobs] keeps the records of the store that the server
    result lacks, by id. *)
Lemma optimisticJobs_absent_from_server (server current : list Job) :
  List.filter
    (λ job, negb (found
       (List.find (λ sj, bool_decide (job_id sj = job_id job)) server)))
    current
  = absent_from_server server current.
Proof.
  unfold absent_from_server. rewrite List_filter_filter.
  apply list_filter_iff. intros job.
  destruct (List.find _ server) as [sj|] eqn:E; cbn.
  - apply List_find_Some_elem in E as [Hin Heq].
    apply bool_decide_eq_true in Heq. split; [done|]. intros Hnot.
    apply Hnot, list_elem_of_fmap. by exists sj.
  - split; [|done]. intros _ [sj [Heq Hin]]%list_elem_of_fmap.
    rewrite List_find_None_elem in E. specialize (E sj Hin).
    by apply bool_decide_eq_false in E.
Qed.







End MergeClaims.


(** A failed reorder overwrites a store that shows more than the cache:
    job D, added to the store, is gone after the rollback. *)
Lemma reorder_failure_overwrites_store rnd error :
  let st := with_jobsStore (JobsStore.addJob (sample_job "D" 3)) sample_client in
  jobs (jobsStore (mutate (Hooks.useReorderJobs rnd) (0, 1) (Rejected error) st))
  = [sample_job "A" 0; sample_job "B" 1]
  ∧ jobs (jobsStore st) = [sample_job "A" 0; sample_job "B" 1; sample_job "D" 3].
Proof. cbn zeta. rewrite useReorderJobs_failure_store. by vm_compute. Qed.

(** ** Pagination *)

Section PaginateFacts.
Context {T : Type}.
Implicit Types (items : list T) (page pageSize : Z).

Lemma js_slice_page items page pageSize :
  1 ≤ page → 1 ≤ pageSize →
  js_slice items ((page - 1) * pageSize) ((page - 1) * pageSize + pageSize)
  = take (Z.to_nat pageSize) (drop (Z.to_nat ((page - 1) * pageSize)) items).
Proof.
  intros Hp Hs. unfold js_slice.
  set (off := (page - 1) * pageSize). assert (0 ≤ off) by (unfold off; nia).
  rewrite !decide_False by lia.
  destruct (decide (Z.of_nat (length items) ≤ off)) as [Hge|Hlt].
  - rewrite (drop_ge items (Z.to_nat off)) by lia.
    rewrite Z.min_r by lia. rewrite drop_ge by lia. by rewrite !take_nil.
  - rewrite (Z.min_l off) by lia.
    destruct (decide (off + pageSize ≤ Z.of_nat (length items))) as [Hin|Hout].
    + rewrite Z.min_l by lia. f_equal. lia.
    + rewrite Z.min_r by lia.
      rewrite !take_ge; [done| |]; rewrite length_drop; lia.
Qed.

Lemma page_items_take_drop items page pageSize :
  1 ≤ page → 1 ≤ pageSize →
  page_items items pageSize page
  = take (Z.to_nat pageSize) (drop (Z.to_nat ((page - 1) * pageSize)) items).
Proof. intros Hp Hs. unfold page_items, Routes.paginate. cbn. by apply js_slice_page. Qed.

Lemma concat_pages items pageSize (k : nat) :
  1 ≤ pageSize →
  concat (page_items items pageSize <$> page_numbers k)
  = take (k * Z.to_nat pageSize) items.
Proof.
  intros Hs. induction k as [|k IH]; [done|].
  unfold page_numbers in *. rewrite seq_S, !fmap_app, concat_app, IH.
  change (concat (page_items items pageSize <$> ((λ k, Z.of_nat (S k)) <$> [(0 + k)%nat])))
    with (page_items items pageSize (Z.of_nat (S k)) ++ [])%list.
  rewrite app_nil_r, page_items_take_drop by lia.
  replace (Z.to_nat ((Z.of_nat (S k) - 1) * pageSize))
    with (k * Z.to_nat pageSize)%nat by nia.
  rewrite take_take_drop. f_equal. lia.
Qed.

Lemma ceil_div_bounds a b :
  0 < b → a ≤ b * ceil_div a b ∧ b * (ceil_div a b - 1) < a.
Proof.
  intros Hb. unfold ceil_div.
  pose proof (Z.div_mod (- a) b ltac:(lia)) as Hdm.
  pose proof (Z.mod_pos_bound (- a) b Hb) as Hm. nia.
Qed.

(** X1.  For a page size of at least 1, [paginate] cuts the list into
    consecutive pages: a page holds at most [pageSize] items, the pages 1
    to [totalPages] put one after the other are the whole list, a page
    after the last is empty, [total] is the length of the list, and
    [totalPages] is the least number of pages that hold it. *)
Theorem paginate_partitions items pageSize :
  1 ≤ pageSize →
  let totalPages := pr_totalPages (Routes.paginate items 1 pageSize) in
  (∀ page, 1 ≤ page →
     Z.of_nat (length (page_items items pageSize page)) ≤ pageSize
     ∧ pr_total (Routes.paginate items page pageSize) = Z.of_nat (length items)
     ∧ pr_totalPages (Routes.paginate items page pageSize) = totalPages)
  ∧ concat (page_items items pageSize <$> page_numbers (Z.to_nat totalPages)) = items
  ∧ (∀ page, totalPages < page → page_items items pageSize page = [])
  ∧ Z.of_nat (length items) ≤ pageSize * totalPages
  ∧ pageSize * (totalPages - 1) < Z.of_nat (length items).
Proof.
  intros Hs. cbn zeta. change (pr_totalPages (Routes.paginate items 1 pageSize))
    with (ceil_div (Z.of_nat (length items)) pageSize).
  destruct (ceil_div_bounds (Z.of_nat (length items)) pageSize ltac:(lia)) as [Hup Hlow].
  split_and!; [| | |done|done].
  - intros page Hp. split_and!; [|done|done].
    rewrite page_items_take_drop, length_take by done. lia.
  - rewrite concat_pages by done. apply take_ge. nia.
  - intros page Hp. assert (1 ≤ page) by nia.
    rewrite page_items_take_drop by done.
    rewrite drop_ge; [by rewrite take_nil|]. nia.
Qed.

End PaginateFacts.

Lemma paginate_partitions_witness :
  concat (page_items [1; 2; 3; 4; 5] 2 <$> page_numbers 3) = [1; 2; 3; 4; 5]
  ∧ page_items [1; 2; 3; 4; 5] 2 4 = [].
Proof.
  destruct (paginate_partitions [1; 2; 3; 4; 5] 2 ltac:(lia)) as (_ & Hcat & Hlast & _).
  split; [exact Hcat|]. apply Hlast. by vm_compute.
Defined.

(** ** Sorting and listing *)

Section SortMoreFacts.
Context {A : Type}.

Lemma sort_insert_StronglySorted (key : A → Z) x (l : list A) :
  StronglySorted (λ a b, key a ≤ key b) l →
  StronglySorted (λ a b, key a ≤ key b) (sort_insert key x l).
Proof.
  induction l as [|y l IH]; intros Hl; cbn [sort_insert].
  - by repeat constructor.
  - apply StronglySorted_cons in Hl as [Hy Hl]. case_decide as Hxy.
    + apply StronglySorted_cons. split.
      * constructor; [done|]. eapply Forall_impl; [exact Hy|]. cbn. lia.
      * by apply StronglySorted_cons.
    + apply StronglySorted_cons. split; [|by apply IH].
      rewrite sort_insert_Permutation. constructor; [lia|done].
Qed.

Lemma sort_by_StronglySorted (key : A → Z) (l : list A) :
  StronglySorted (λ a b, key a ≤ key b) (sort_by key l).
Proof.
  induction l as [|x l IH]; [constructor|].
  by apply sort_insert_StronglySorted.
Qed.

(** The sort is stable: among the elements of one key the order is the one
    of the input. *)
Lemma sort_by_stable (key : A → Z) (k : Z) (l : list A) :
  filter (λ a, key a = k) (sort_by key l) = filter (λ a, key a = k) l.
Proof.
  induction l as [|x l IH]; [done|].
  change (sort_by key (x :: l)) with (sort_insert key x (sort_by key l)).
  rewrite filter_cons, <-IH. generalize (sort_by key l). clear IH. intros s.
  induction s as [|y s IHs]; cbn [sort_insert].
  - by rewrite filter_cons.
  - destruct (decide (key x ≤ key y)) as [Hxy|Hxy]; [by rewrite filter_cons|].
    rewrite !filter_cons, IHs.
    destruct (decide (key y = k)) as [Hy|Hy], (decide (key x = k)) as [Hx|Hx];
      try done; lia.
Qed.

Lemma sort_insert_with_Permutation (c : A → A → Z) x (l : list A) :
  sort_insert_with c x l ≡ₚ x :: l.
Proof.
  induction l as [|y l IH]; [done|]. cbn [sort_insert_with].
  case_decide; [done|]. rewrite IH. apply Permutation_swap.
Qed.

Lemma sort_with_Permutation (c : A → A → Z) (l : list A) : sort_with c l ≡ₚ l.
Proof.
  induction l as [|x l IH]; [done|].
  unfold sort_with in *. cbn [foldr]. by rewrite sort_insert_with_Permutation, IH.
Qed.

Lemma StronglySorted_comes_before (R : A → A → Prop) `{!Reflexive R}
    (l : list A) x y :
  StronglySorted R l → x ∈ l → y ∈ l → ¬ R y x → comes_before x y l.
Proof.
  intros Hl Hx Hy Hnot.
  apply list_elem_of_split in Hy as (l1 & l2 & ->).
  apply elem_of_app in Hx as [Hx|Hx].
  - apply list_elem_of_split in Hx as (l3 & l4 & ->).
    exists l3, l4, l2. by rewrite <-app_assoc.
  - exfalso. apply Hnot. apply elem_of_cons in Hx as [->|Hx]; [done|].
    apply StronglySorted_app_1_r, StronglySorted_cons in Hl as [Hall _].
    by apply (proj1 (Forall_forall _ _) Hall).
Qed.

End SortMoreFacts.

Section ListingClaims.
Import StorageService.

#[local] Instance order_key_le_refl : Reflexive (λ a b : Job, order_key a ≤ order_key b).
Proof. intros a. lia. Qed.

(** X2.  [getAllJobs] reports each record that has an id once, with the
    order it is stored with, sorted by order where order 0 counts as
    999999: a job with order 0 comes after every job whose order is
    neither 0 nor 999999 or more.  Jobs of equal sort key keep the order
    in which the table yields them. *)
Theorem getAllJobs_sorted now (s : gmap string Job) :
  StronglySorted (λ a b, order_key a ≤ order_key b) (getAllJobs now s)
  ∧ job_order <$> getAllJobs now s
    ≡ₚ job_order <$> filter (λ v, job_id v ≠ "") (iterate s)
  ∧ (∀ a b, a ∈ getAllJobs now s → b ∈ getAllJobs now s →
            job_order a = 0 → job_order b ≠ 0 → job_order b < 999999 →
            comes_before b a (getAllJobs now s))
  ∧ (∀ k, filter (λ j, order_key j = k) (getAllJobs now s)
          = filter (λ j, order_key j = k)
                   (validJob now <$> List.filter valid_record (iterate s))).
Proof.
  split_and!.
  - apply sort_by_StronglySorted.
  - rewrite getAllJobs_Permutation, <-list_fmap_compose.
    rewrite (list_fmap_ext (job_order ∘ validJob now) job_order) by done.
    apply fmap_Permutation. erewrite list_filter_iff; [done|].
    intros v. unfold valid_record. by rewrite bool_decide_spec.
  - intros a b Ha Hb Ha0 Hb0 Hb9.
    apply (StronglySorted_comes_before (λ a b, order_key a ≤ order_key b));
      [apply sort_by_StronglySorted|done|done|].
    unfold order_key, num_or. rewrite Ha0, decide_True, decide_False by done. lia.
  - intros k. apply sort_by_stable.
Qed.

Section WithBuiltins.
Variable toLowerCase : string → string.
Variable string_lt : string → string → bool.
Variable getTime : string → option Z.

Lemma elem_of_filter_jobs search status (js : list Job) j :
  j ∈ Routes.filter_jobs toLowerCase search status js ↔
  j ∈ js
  ∧ (search ≠ "" → Routes.matches_search toLowerCase (toLowerCase search) j = true)
  ∧ (status ≠ "all" → status_name (job_status j) = status).
Proof.
  unfold Routes.filter_jobs. rewrite !List_filter_filter.
  destruct (decide (search = "")) as [Hs|Hs], (decide (status = "all")) as [Ht|Ht];
    rewrite ?list_elem_of_filter, ?bool_decide_spec, ?Is_true_true; tauto.
Qed.

(** The callback of the search filter answers true exactly for the jobs in
    which the search term is found. *)
Lemma matches_search_hit searchLower (job : Job) :
  Routes.matches_search toLowerCase searchLower job = true
  ↔ search_hit toLowerCase searchLower job.
Proof.
  unfold Routes.matches_search, search_hit.
  rewrite !orb_true_iff, existsb_exists, Exists_exists.
  split.
  - intros [[H|H]|(tag & Hin & H)]; [by left | by right; left | right; right].
    exists tag. by rewrite list_elem_of_In.
  - intros [H|[H|(tag & Hin & H)]]; [by left; left | by left; right | right].
    exists tag. by rewrite <- list_elem_of_In.
Qed.

(** The two filters of GET /jobs keep exactly the jobs that pass, in the
    order of the list. *)
Lemma filter_jobs_passes_filters search status (js : list Job) :
  Routes.filter_jobs toLowerCase search status js
  = filter (passes_filters toLowerCase search status) js.
Proof.
  unfold Routes.filter_jobs. rewrite !List_filter_filter.
  destruct (decide (search = "")) as [Hs|Hs], (decide (status = "all")) as [Ht|Ht].
  - symmetry. apply filter_all. intros j _. split; by left.
  - apply list_filter_iff. intros j. rewrite bool_decide_spec.
    unfold passes_filters. tauto.
  - apply list_filter_iff. intros j. rewrite Is_true_true, matches_search_hit.
    unfold passes_filters. tauto.
  - rewrite list_filter_filter. apply list_filter_iff. intros j.
    rewrite bool_decide_spec, Is_true_true, matches_search_hit.
    unfold passes_filters. tauto.
Qed.

(** X3.  GET /jobs with a page size of at least 1 and a page of at least 1.
    A job passes when the search term is empty or is found in it, and the
    status asked for is all or is the job's.  [total] is the number of
    reported jobs that pass; the page holds at most [pageSize] jobs, each
    of them a reported job that passes; every reported job that passes is
    on one of the pages 1 to [totalPages]; and these pages together hold
    exactly the reported jobs that pass, each as often as it is reported.
    Without a search term and without a status every reported job is
    listed. *)
Theorem get_jobs_lists_matching now queryParams (s : gmap string Job) :
  1 ≤ default 1 (qp_page queryParams) →
  1 ≤ default 10 (qp_pageSize queryParams) →
  let passes :=
    passes_filters toLowerCase (default "" (qp_search queryParams))
                   (default "all" (qp_status queryParams)) in
  let response := Routes.get_jobs toLowerCase string_lt getTime now queryParams s in
  let pages :=
    concat ((λ p, array_or_empty
                    (pr_data (Routes.get_jobs toLowerCase string_lt getTime now
                                              (with_page queryParams p) s)))
              <$> page_numbers (Z.to_nat (pr_totalPages response))) in
  pr_total response = Z.of_nat (length (filter passes (getAllJobs now s)))
  ∧ Z.of_nat (length (array_or_empty (pr_data response))) ≤ pr_pageSize response
  ∧ (∀ j, j ∈ array_or_empty (pr_data response) → j ∈ getAllJobs now s ∧ passes j)
  ∧ (∀ j, j ∈ pages ↔ j ∈ getAllJobs now s ∧ passes j)
  ∧ pages ≡ₚ filter passes (getAllJobs now s)
  ∧ (qp_search queryParams = None → qp_status queryParams = None →
     pr_total response = Z.of_nat (length (getAllJobs now s))
     ∧ pages ≡ₚ getAllJobs now s).
Proof.
  intros Hp Hs. cbn zeta. rewrite <- !filter_jobs_passes_filters.
  unfold Routes.get_jobs.
  set (matching := Routes.filter_jobs _ _ _ _).
  set (sorted := sort_with _ matching).
  assert (sorted ≡ₚ matching) as Hperm by apply sort_with_Permutation.
  assert (∀ j, j ∈ matching ↔
               j ∈ getAllJobs now s
               ∧ passes_filters toLowerCase (default "" (qp_search queryParams))
                                (default "all" (qp_status queryParams)) j) as Hin.
  { intros j. unfold matching.
    rewrite filter_jobs_passes_filters, list_elem_of_filter. tauto. }
  set (pages := concat _).
  assert (pages ≡ₚ matching) as Hpages.
  { transitivity sorted; [|done].
    change (concat (page_items sorted (default 10 (qp_pageSize queryParams))
                      <$> page_numbers
                            (Z.to_nat (ceil_div (Z.of_nat (length sorted))
                                                (default 10 (qp_pageSize queryParams)))))
            ≡ₚ sorted).
    rewrite concat_pages by done. rewrite take_ge; [done|].
    destruct (ceil_div_bounds (Z.of_nat (length sorted))
                (default 10 (qp_pageSize queryParams)) ltac:(lia)). nia. }
  clearbody pages.
  split_and!.
  - cbn. by rewrite Hperm.
  - change (Z.of_nat (length (page_items sorted (default 10 (qp_pageSize queryParams))
                                          (default 1 (qp_page queryParams))))
            ≤ default 10 (qp_pageSize queryParams)).
    rewrite page_items_take_drop, length_take by done. lia.
  - intros j Hj.
    change (j ∈ page_items sorted (default 10 (qp_pageSize queryParams))
                           (default 1 (qp_page queryParams))) in Hj.
    rewrite page_items_take_drop in Hj by done.
    apply subseteq_take, subseteq_drop in Hj. rewrite Hperm in Hj.
    by apply Hin.
  - intros j. rewrite Hpages. apply Hin.
  - exact Hpages.
  - intros Hsearch Hstatus.
    assert (matching = getAllJobs now s) as Hall.
    { unfold matching. rewrite filter_jobs_passes_filters.
      apply filter_all. intros j _.
      rewrite Hsearch, Hstatus. split; by left. }
    split.
    + cbn. by rewrite Hperm, Hall.
    + by rewrite Hpages, Hall.
Qed.

End WithBuiltins.

Lemma prefix_occurs (sub s : string) :
  String.prefix sub s = true ↔ ∃ post, s = sub +:+ post.
Proof.
  revert s. induction sub as [|a sub IH]; intros [|b s]; cbn.
  - split; [by exists "" | done].
  - split; [by exists (String b s) | done].
  - split; [done | intros [post Hpost]; discriminate].
  - destruct (Ascii.ascii_dec a b) as [->|Hab].
    + rewrite IH. split; intros [post Hpost]; exists post.
      * by rewrite Hpost.
      * by injection Hpost.
    + split; [done|]. intros [post Hpost]. injection Hpost as Hb _. congruence.
Qed.

(** [String.prototype.includes] answers true exactly when the argument
    occurs in the string. *)
Lemma includes_occurs_in (s sub : string) :
  includes s sub = true ↔ occurs_in sub s.
Proof.
  unfold occurs_in. induction s as [|b s IH]; cbn [includes];
    rewrite orb_true_iff, prefix_occurs.
  - split.
    + intros [[post Hpost]|H]; [|done]. by exists "", post.
    + intros (pre & post & H). left. exists post.
      destruct pre; [done | discriminate].
  - rewrite IH. split.
    + intros [[post Hpost]|(pre & post & H)].
      * by exists "", post.
      * exists (String b pre), post. cbn. by rewrite H.
    + intros (pre & post & H). destruct pre as [|c pre].
      * left. by exists post.
      * right. exists pre, post. cbn in H. by injection H.
Qed.

(** The sample table of A, B and C, all active, listed two to a page:
    the status active finds 3 jobs, the status archived none, and the
    search term Job B (with the identity in place of [toLowerCase]) finds
    one. *)
Lemma get_jobs_lists_matching_witness :
  pr_total (Routes.get_jobs (λ x, x) (λ _ _, false) (λ _, None) t0
              (mkJobsQueryParams None (Some "active") None (Some 2) None None) abc_store)
  = 3
  ∧ pr_total (Routes.get_jobs (λ x, x) (λ _ _, false) (λ _, None) t0
              (mkJobsQueryParams None (Some "archived") None (Some 2) None None)
              abc_store)
    = 0
  ∧ pr_total (Routes.get_jobs (λ x, x) (λ _ _, false) (λ _, None) t0
              (mkJobsQueryParams (Some "Job B") None None (Some 2) None None)
              abc_store)
    = 1.
Proof.
  split_and!.
  - destruct (get_jobs_lists_matching (λ x, x) (λ _ _, false) (λ _, None) t0
                (mkJobsQueryParams None (Some "active") None (Some 2) None None)
                abc_store)
      as (Htotal & _); [by vm_compute..|].
    rewrite Htotal. by vm_compute.
  - destruct (get_jobs_lists_matching (λ x, x) (λ _ _, false) (λ _, None) t0
                (mkJobsQueryParams None (Some "archived") None (Some 2) None None)
                abc_store)
      as (Htotal & _); [by vm_compute..|].
    rewrite Htotal. by vm_compute.
  - destruct (get_jobs_lists_matching (λ x, x) (λ _ _, false) (λ _, None) t0
                (mkJobsQueryParams (Some "Job B") None None (Some 2) None None)
                abc_store)
      as (Htotal & _); [by vm_compute..|].
    rewrite Htotal. by vm_compute.
Defined.

End ListingClaims.

(** ** More on the retry wrapper *)

Section RetryMore.
Context {T : Type}.
Implicit Types (fn : nat → Outcome T) (delay : Z).

Lemma handleApiError_ApiError error : ∃ m st, handleApiError error = ApiError m st.
Proof. destruct error; cbn; eauto. Qed.

Lemma withRetry_loop_rejects fn delay i remaining e :
  (withRetry_loop fn delay i remaining).1 = Rejected e → ∃ m st, e = ApiError m st.
Proof.
  revert i. induction remaining as [|r IH]; intros i; cbn [withRetry_loop].
  - destruct (fn i) as [v|err]; [done|]. cbn. intros [= <-].
    apply handleApiError_ApiError.
  - destruct (fn i) as [v|err]; [done|]. destruct (gives_up err) eqn:Hg.
    + cbn. intros [= <-]. destruct err; try done. eauto.
    + specialize (IH (S i)).
      destruct (withRetry_loop fn delay (S i) r) as [res ws]. exact IH.
Qed.

(** X4.  When what [fn] throws is of a shape that [JsError] covers (an
    [ApiError], an error with a [response], an error with only a
    [request], or any other value that is neither [null] nor
    [undefined]), an error that [withRetry] rejects with is an
    [ApiError].  A thrown [null] or [undefined] is outside [JsError] and
    outside this statement: on it [handleApiError] reads a property of
    [null] or [undefined], which throws a [TypeError]. *)
Theorem withRetry_rejects_ApiError fn maxRetries delay e :
  (withRetry fn maxRetries delay).1 = Rejected e → ∃ m st, e = ApiError m st.
Proof. apply withRetry_loop_rejects. Qed.

Lemma withRetry_loop_first_success fn delay i remaining k v :
  (∀ j, (i ≤ j < i + k)%nat → ∃ e, fn j = Rejected e ∧ gives_up e = false) →
  fn (i + k)%nat = Resolved v → (k ≤ remaining)%nat →
  withRetry_loop fn delay i remaining
  = (Resolved v, (λ x, delay * 2 ^ Z.of_nat x) <$> seq i k).
Proof.
  revert i remaining. induction k as [|k IH]; intros i remaining Hfail Hok Hk.
  - rewrite Nat.add_0_r in Hok. destruct remaining; cbn; by rewrite Hok.
  - destruct remaining as [|r]; [lia|].
    destruct (Hfail i ltac:(lia)) as (e & He & Hg).
    cbn [withRetry_loop]. rewrite He, Hg.
    rewrite (IH (S i) r); [done| | |lia].
    + intros j Hj. apply Hfail. lia.
    + by replace (S i + k)%nat with (i + S k)%nat by lia.
Qed.

(** X5.  When the first [k] calls fail with errors that are retried and
    the next call succeeds, within the ceiling, [withRetry] resolves to
    the value of that call after waiting [delay], [2 delay], ...,
    [2^(k-1) delay]. *)
Theorem withRetry_first_success fn maxRetries delay (k : nat) v :
  (∀ j, (j < k)%nat → ∃ e, fn j = Rejected e ∧ gives_up e = false) →
  fn k = Resolved v → (k ≤ maxRetries)%nat →
  withRetry fn maxRetries delay = (Resolved v, backoff delay k)
  ∧ attempts (withRetry fn maxRetries delay) = S k.
Proof.
  intros Hfail Hok Hk.
  assert (withRetry fn maxRetries delay = (Resolved v, backoff delay k)) as ->.
  { apply withRetry_loop_first_success; [|done|done]. intros j Hj. apply Hfail. lia. }
  split; [done|]. unfold attempts, backoff. cbn. by rewrite length_fmap, length_seq.
Qed.

Lemma total_wait_app (l : list Z) x : total_wait (l ++ [x]) = total_wait l + x.
Proof. unfold total_wait. induction l as [|y l IH]; cbn; lia. Qed.

Lemma total_wait_backoff delay (n : nat) :
  total_wait (backoff delay n) = delay * (2 ^ Z.of_nat n - 1).
Proof.
  induction n as [|n IH]; [cbn; lia|].
  unfold backoff in *. rewrite seq_S, fmap_app.
  change ((λ i, delay * 2 ^ Z.of_nat i) <$> [(0 + n)%nat])
    with [delay * 2 ^ Z.of_nat n].
  rewrite total_wait_app, IH, Nat2Z.inj_succ, Z.pow_succ_r by lia. lia.
Qed.

(** X6.  With a delay that is not negative, a run of [withRetry] calls
    [fn] at most [maxRetries + 1] times and waits at most
    [delay (2^maxRetries - 1)] milliseconds in all. *)
Theorem withRetry_wait_bound fn (maxRetries : nat) delay :
  0 ≤ delay →
  (attempts (withRetry fn maxRetries delay) ≤ S maxRetries)%nat
  ∧ 0 ≤ total_wait (withRetry fn maxRetries delay).2
      ≤ delay * (2 ^ Z.of_nat maxRetries - 1).
Proof.
  intros Hd. destruct (withRetry_backoff fn maxRetries delay) as (n & Hn & Hw).
  unfold attempts. rewrite Hw, total_wait_backoff.
  assert (1 ≤ 2 ^ Z.of_nat n ≤ 2 ^ Z.of_nat maxRetries).
  { split; [|apply Z.pow_le_mono_r; lia].
    pose proof (Z.pow_pos_nonneg 2 (Z.of_nat n)). lia. }
  split; [|nia]. unfold backoff. rewrite length_fmap, length_seq. lia.
Qed.

End RetryMore.

Lemma withRetry_rejects_ApiError_witness :
  ∃ m st, PlainError "boom" ≠ ApiError m st
          ∧ (withRetry (λ _, Rejected (PlainError "boom") : Outcome unit) 2 10).1
            = Rejected (ApiError m st).
Proof.
  destruct (withRetry_rejects_ApiError
              (λ _, Rejected (PlainError "boom") : Outcome unit) 2 10
              (ApiError "boom" None)) as (m & st & Heq).
  - by vm_compute.
  - exists m, st. split; [done|]. rewrite <-Heq. by vm_compute.
Defined.

Lemma withRetry_first_success_witness :
  withRetry (λ i, if decide (i < 2)%nat then Rejected (PlainError "Failed to fetch")
                  else Resolved i) 3 1000
  = (Resolved 2%nat, [1000; 2000]).
Proof.
  apply (withRetry_first_success
           (λ i, if decide (i < 2)%nat then Rejected (PlainError "Failed to fetch")
                 else Resolved i) 3 1000 2 2%nat).
  - intros j Hj. exists (PlainError "Failed to fetch").
    by rewrite decide_True by done.
  - reflexivity.
  - lia.
Defined.

Lemma withRetry_wait_bound_witness :
  total_wait (withRetry_default (λ _, Rejected RequestError : Outcome unit)).2 ≤ 7000.
Proof.
  apply (withRetry_wait_bound (λ _, Rejected RequestError : Outcome unit) 3 1000). lia.
Defined.

(** ** More on the job and candidate routes *)

Section RoutesMore.
Import StorageService.

Lemma getJobBySlug_None now slug s :
  (∀ j, j ∈ getAllJobs now s → job_slug j ≠ slug) → getJobBySlug now slug s = None.
Proof.
  intros Hfree. unfold getJobBySlug. apply List_find_None_elem.
  intros j Hj. apply bool_decide_eq_false. by apply Hfree.
Qed.

(** X7.  When no reported job has the slug, POST /jobs succeeds: the job
    it returns carries every field of the body (title, slug, description,
    status, tags, order, location, type and salary), the id of the body or
    else the random one, and the time of the call as [createdAt] and
    [updatedAt]; the table afterwards is the table before with that job
    stored under its id, so GET /jobs/:id then returns that job, and the
    records under other keys are as before. *)
Theorem create_job_stores now rnd jobData (s : gmap string Job) :
  (∀ j, j ∈ getAllJobs now s → job_slug j ≠ jd_slug jobData) →
  ∃ job s',
    Server.post_jobs now rnd jobData s = (Success job, s')
    ∧ job_id job = str_or (default "" (jd_id jobData)) rnd
    ∧ job_createdAt job = now ∧ job_updatedAt job = now
    ∧ job_title job = jd_title jobData
    ∧ job_slug job = jd_slug jobData
    ∧ job_description job = jd_description jobData
    ∧ job_status job = jd_status jobData
    ∧ job_tags job = jd_tags jobData
    ∧ job_order job = jd_order jobData
    ∧ job_location job = jd_location jobData
    ∧ job_type job = jd_type jobData
    ∧ job_salary job = jd_salary jobData
    ∧ s' = <[job_id job := job]> s
    ∧ Routes.get_job (job_id job) s' = Success job
    ∧ (∀ k, k ≠ job_id job → s' !! k = s !! k).
Proof.
  intros Hfree. unfold Server.post_jobs. rewrite getJobBySlug_None by done.
  eexists _, _. split; [done|]. cbn. split_and!; try done.
  - unfold Routes.get_job, getJob, saveJob. cbn. by rewrite lookup_insert_eq.
  - intros k Hk. unfold saveJob. cbn. by rewrite lookup_insert_ne.
Qed.

(** Creating the sample job with slug job-D in the table of A, B and C:
    the job returned is the body with the random id and the time of the
    call, and GET /jobs/:id returns it. *)
Lemma create_job_stores_witness :
  ∃ s',
    Server.post_jobs t1 "r4nd0m" (sample_job_data "job-D") abc_store
    = (Success (mkJob "r4nd0m" t1 t1 "Engineer" "job-D" "A position" active []
                      3 "Remote" full_time None), s')
    ∧ Routes.get_job "r4nd0m" s'
      = Success (mkJob "r4nd0m" t1 t1 "Engineer" "job-D" "A position" active []
                       3 "Remote" full_time None).
Proof.
  destruct (create_job_stores t1 "r4nd0m" (sample_job_data "job-D") abc_store)
    as (job & s' & Hpost & Hid & Hc & Hu & Ht & Hsl & Hd & Hst & Htg & Ho & Hl
        & Hty & Hsa & _ & Hget & _).
  - apply Forall_forall. by_compute.
  - assert (job = mkJob "r4nd0m" t1 t1 "Engineer" "job-D" "A position" active []
                        3 "Remote" full_time None) as Hjob.
    { destruct job. cbn in *. by subst. }
    exists s'. rewrite <- Hjob. split; [done|]. by rewrite <- Hget, Hid.
Defined.



Lemma spread_spread {A} (a : A) (b c : option A) :
  spread (spread a b) c = spread a (spread_opt b c).
Proof. by destruct b, c. Qed.

Lemma spread_opt_assoc {A} (a b c : option A) :
  spread_opt (spread_opt a b) c = spread_opt a (spread_opt b c).
Proof. by destruct c. Qed.

Lemma job_spread_spread j u1 u2 :
  job_spread (job_spread j u1) u2 = job_spread j (object_spread (Some u1) u2).
Proof.
  unfold job_spread, object_spread. cbn -[spread spread_opt].
  by rewrite !spread_spread, spread_opt_assoc.
Qed.

Lemma patch_jobs_found now id u (s : gmap string Job) j :
  s !! id = Some j →
  Server.patch_jobs now id u s
  = (Success (job_with_updatedAt (job_spread j u) now),
     saveJob (job_with_updatedAt (job_spread j u) now) s).
Proof. intros Hj. unfold Server.patch_jobs, getJob. by rewrite Hj. Qed.

Lemma patch_jobs_patch_jobs now1 now2 id u1 u2 (s : gmap string Job) j :
  s !! id = Some j → job_id j = id → jp_id u1 = None → jp_id u2 = None →
  Server.patch_jobs now2 id u2 (Server.patch_jobs now1 id u1 s).2
  = Server.patch_jobs now2 id (object_spread (Some u1) u2) s.
Proof.
  intros Hj Hid H1 H2.
  rewrite (patch_jobs_found now1 id u1 s j Hj). cbn [snd].
  set (j1 := job_with_updatedAt (job_spread j u1) now1).
  assert (job_id j1 = id) as Hk1 by (cbn; by rewrite H1).
  rewrite (patch_jobs_found now2 id u2 (saveJob j1 s) j1)
    by (unfold saveJob; by rewrite Hk1, lookup_insert_eq).
  rewrite (patch_jobs_found now2 id _ s j Hj).
  assert (job_with_updatedAt (job_spread j1 u2) now2
          = job_with_updatedAt (job_spread j (object_spread (Some u1) u2)) now2) as ->.
  { by rewrite <-job_spread_spread. }
  f_equal. unfold saveJob. rewrite Hk1.
  assert (job_id (job_with_updatedAt (job_spread j (object_spread (Some u1) u2)) now2) = id)
    as ->.
  { cbn. by rewrite H1, H2. }
  by rewrite insert_insert_eq.
Qed.

(** X9.  Two PATCH /jobs/:id requests in a row, neither carrying an id in
    its body, leave the table and the answer of one request with the
    second body spread over the first, made at the time of the second. *)
Theorem patch_job_twice now1 now2 id u1 u2 (s : gmap string Job) j :
  s !! id = Some j → job_id j = id → jp_id u1 = None → jp_id u2 = None →
  Server.patch_jobs now2 id u2 (Server.patch_jobs now1 id u1 s).2
  = Server.patch_jobs now2 id (object_spread (Some u1) u2) s.
Proof. apply patch_jobs_patch_jobs. Qed.

Lemma patch_job_twice_witness :
  Server.patch_jobs t1 "A" archive_patch
    (Server.patch_jobs t0 "A" (rename "Renamed") abc_store).2
  = Server.patch_jobs t1 "A"
      (mkJobPatch None None None (Some "Renamed") None None (Some archived)
                  None None None None None) abc_store.
Proof.
  apply (patch_job_twice t0 t1 "A" (rename "Renamed") archive_patch abc_store
           (sample_job "A" 0)).
  - by vm_compute.
  - reflexivity.
  - reflexivity.
  - reflexivity.
Defined.

(** X10.  DELETE /jobs/:id is PATCH /jobs/:id with the body
    [{ status: 'archived' }]; archiving a job that is archived already
    changes nothing but [updatedAt]. *)
Theorem delete_job_is_patch now now' id (s : gmap string Job) :
  Server.delete_jobs now id s = Server.patch_jobs now id archive_patch s
  ∧ (∀ j, s !! id = Some j → job_id j = id →
          Server.delete_jobs now' id (Server.delete_jobs now id s).2
          = Server.delete_jobs now' id s).
Proof.
  assert (∀ t i (m : gmap string Job),
            Server.delete_jobs t i m = Server.patch_jobs t i archive_patch m) as Heq.
  { intros t i m. unfold Server.delete_jobs, Server.patch_jobs.
    destruct (getJob i m) as [j|]; [|done]. by destruct j. }
  split; [apply Heq|]. intros j Hj Hid. rewrite !Heq.
  rewrite (patch_jobs_patch_jobs now now' id archive_patch archive_patch s j) by done.
  done.
Qed.

Lemma delete_job_is_patch_witness :
  Server.delete_jobs t1 "A" (Server.delete_jobs t0 "A" abc_store).2
  = Server.delete_jobs t1 "A" abc_store.
Proof.
  apply (proj2 (delete_job_is_patch t0 t1 "A" abc_store) (sample_job "A" 0)).
  - by vm_compute.
  - reflexivity.
Defined.

(** X11.  PATCH /candidates/:id never rewrites the timeline it finds: for
    every body, also one that carries a timeline of its own, the timeline
    of the candidate it returns and stores is the stored one, followed by
    one event exactly when the body asks for a stage other than the
    stored one. *)
Theorem patch_candidate_timeline_append_only now rnd id body
    (s : gmap string Candidate) c :
  s !! id = Some c →
  ∃ c' s',
    Server.patch_candidates now rnd id body s = (Success c', s')
    ∧ s' !! candidate_id c' = Some c'
    ∧ candidate_updatedAt c' = now
    ∧ ((∃ st, cp_stage body = Some st ∧ st ≠ candidate_stage c
              ∧ candidate_timeline c'
                = (candidate_timeline c
                     ++ [Server.moved_event now rnd (candidate_stage c) st])%list)
       ∨ ((cp_stage body = None ∨ cp_stage body = Some (candidate_stage c))
          ∧ candidate_timeline c' = candidate_timeline c)).
Proof.
  intros Hc. unfold Server.patch_candidates, getCandidate. rewrite Hc.
  eexists _, _. split; [done|]. split_and!.
  - unfold saveCandidate. by rewrite lookup_insert_eq.
  - done.
  - cbn. destruct (cp_stage body) as [st|]; [|right; by split; [left|]].
    case_decide as Hst.
    + left. by exists st.
    + right. subst. by split; [right|].
Qed.

Lemma patch_candidate_timeline_append_only_witness :
  ∃ c' s',
    Server.patch_candidates t1 "e1" "c1"
      (mkCandidatePatch None None None None None None None (Some screen) None None None
                        (Some []))
      (saveCandidate (sample_candidate "c1" screen) ∅) = (Success c', s')
    ∧ candidate_timeline c' = candidate_timeline (sample_candidate "c1" screen).
Proof.
  destruct (patch_candidate_timeline_append_only t1 "e1" "c1"
              (mkCandidatePatch None None None None None None None (Some screen)
                                None None None (Some []))
              (saveCandidate (sample_candidate "c1" screen) ∅)
              (sample_candidate "c1" screen))
    as (c' & s' & H1 & _ & _ & [(st & Hst & Hne & _) | [_ Htl]]).
  - by vm_compute.
  - exfalso. cbn in Hst. injection Hst as <-. by apply Hne.
  - by exists c', s'.
Defined.

(** X12.  DELETE /candidates/:id removes the record and answers success
    whether or not the id was stored: afterwards GET and PATCH for the id
    answer 404, the other records are untouched, and a second DELETE
    changes nothing. *)
Theorem delete_candidate_removes now rnd id body (s : gmap string Candidate) :
  (Routes.delete_candidates id s).1 = Success ()
  ∧ Routes.get_candidate id (Routes.delete_candidates id s).2
    = Failure 404 "Candidate not found"
  ∧ Server.patch_candidates now rnd id body (Routes.delete_candidates id s).2
    = (Failure 404 "Candidate not found", (Routes.delete_candidates id s).2)
  ∧ (∀ k, k ≠ id → (Routes.delete_candidates id s).2 !! k = s !! k)
  ∧ (Routes.delete_candidates id (Routes.delete_candidates id s).2).2
    = (Routes.delete_candidates id s).2.
Proof.
  unfold Routes.delete_candidates, Routes.get_candidate, Server.patch_candidates,
    getCandidate, deleteCandidate. cbn [fst snd].
  rewrite lookup_delete_eq. split_and!; try done.
  - intros k Hk. by rewrite lookup_delete_ne.
  - apply delete_id. by rewrite lookup_delete_eq.
Qed.

End RoutesMore.

(** ** Sign-up and sign-in *)

Section AuthClaims.
Import StorageService.

Lemma List_find_unique {A} (f : A → bool) (l : list A) x :
  x ∈ l → f x = true → (∀ y, y ∈ l → f y = true → y = x) → List.find f l = Some x.
Proof.
  intros Hx Hf Huniq. destruct (List_find_is_Some f l x Hx Hf) as [y Hy].
  rewrite Hy. f_equal. apply List_find_Some_elem in Hy as [Hin Hfy]. by apply Huniq.
Qed.

(** X13.  Sign-up followed by sign-in.  When all four fields are given and
    no stored user has the email, POST /auth/signup stores the user under
    the random id and returns it without the password; the stored role is
    "hr" when "hr" was asked for and "candidate" for anything else; and
    POST /auth/signin with the same email and password then returns the
    same user. *)
Theorem signup_then_signin now rnd userData (s : gmap string User) :
  su_name userData ≠ "" → su_email userData ≠ "" →
  su_password userData ≠ "" → su_role userData ≠ "" →
  (∀ u, u ∈ Routes.getUsers s → user_email u ≠ su_email userData) →
  ∃ info s',
    Routes.post_auth_signup now rnd userData s = (Success info, s')
    ∧ ur_id info = rnd ∧ ur_name info = su_name userData
    ∧ ur_email info = su_email userData
    ∧ ur_role info = (if decide (su_role userData = "hr") then "hr" else "candidate")
    ∧ (user_password <$> s' !! rnd) = Some (su_password userData)
    ∧ (∀ k, k ≠ rnd → s' !! k = s !! k)
    ∧ Routes.post_auth_signin (su_email userData) (su_password userData) s'
      = Success info.
Proof.
  intros Hn He Hp Hr Hfree. unfold Routes.post_auth_signup.
  rewrite !bool_decide_eq_false_2 by done. cbn [orb].
  assert (List.find (λ user, bool_decide (user_email user = su_email userData))
                    (Routes.getUsers s) = None) as ->.
  { apply List_find_None_elem. intros u Hu. apply bool_decide_eq_false. by apply Hfree. }
  set (newUser := mkUser _ _ _ _ _ _ _).
  eexists _, _. split; [done|]. unfold Routes.saveUser. cbn [user_id newUser].
  split_and!; try done.
  - by rewrite lookup_insert_eq.
  - intros k Hk. by rewrite lookup_insert_ne.
  - unfold Routes.post_auth_signin.
    rewrite !bool_decide_eq_false_2 by done. cbn [orb].
    rewrite (List_find_unique _ _ newUser); [done| | |].
    + apply elem_of_iterate. exists rnd. by rewrite lookup_insert_eq.
    + cbn. by rewrite !bool_decide_eq_true_2.
    + intros y [k Hk]%elem_of_iterate Hy.
      apply andb_true_iff in Hy as [Hy _]. apply bool_decide_eq_true in Hy.
      destruct (decide (k = rnd)) as [->|Hne].
      * rewrite lookup_insert_eq in Hk. by injection Hk as <-.
      * rewrite lookup_insert_ne in Hk by done. exfalso.
        apply (Hfree y); [|done]. apply elem_of_iterate. by exists k.
Qed.

Lemma signup_then_signin_witness :
  ∃ info s',
    Routes.post_auth_signup t0 "u1" sample_signup ∅ = (Success info, s')
    ∧ ur_role info = "candidate"
    ∧ Routes.post_auth_signin "ada@example.com" "S3cret" s' = Success info.
Proof.
  destruct (signup_then_signin t0 "u1" sample_signup ∅)
    as (info & s' & H1 & _ & _ & _ & H2 & _ & _ & H3); try done.
  - intros u Hu. apply elem_of_iterate in Hu as [k Hk]. by rewrite lookup_empty in Hk.
  - by exists info, s'.
Defined.

(** X14.  POST /auth/signup with a missing field, or with the email of a
    stored user, answers 400 and stores nothing. *)
Theorem signup_rejected now rnd userData (s : gmap string User) :
  (su_name userData = "" ∨ su_email userData = "" ∨ su_password userData = ""
   ∨ su_role userData = ""
   ∨ ∃ u, u ∈ Routes.getUsers s ∧ user_email u = su_email userData) →
  ∃ message, Routes.post_auth_signup now rnd userData s = (Failure 400 message, s).
Proof.
  intros Hbad. unfold Routes.post_auth_signup.
  destruct (bool_decide (su_name userData = "") || bool_decide (su_email userData = "")
            || bool_decide (su_password userData = "")
            || bool_decide (su_role userData = "")) eqn:Hfields; [by eexists|].
  apply orb_false_iff in Hfields as [Hfields Hr].
  apply orb_false_iff in Hfields as [Hfields Hp].
  apply orb_false_iff in Hfields as [Hn He].
  apply bool_decide_eq_false in Hn, He, Hp, Hr.
  destruct Hbad as [?|[?|[?|[?|(u & Hu & Hmail)]]]]; try done.
  destruct (List_find_is_Some
              (λ user, bool_decide (user_email user = su_email userData))
              (Routes.getUsers s) u Hu) as [x ->]; [by apply bool_decide_eq_true|].
  by eexists.
Qed.

Lemma signup_rejected_witness :
  ∃ message,
    Routes.post_auth_signup t1 "u2" sample_signup
      (Routes.post_auth_signup t0 "u1" sample_signup ∅).2
    = (Failure 400 message, (Routes.post_auth_signup t0 "u1" sample_signup ∅).2).
Proof.
  apply signup_rejected. do 4 right.
  exists (mkUser "u1" "Ada" "ada@example.com" "S3cret" "candidate" (Some t0) (Some t0)).
  split; [|reflexivity]. apply elem_of_iterate. exists "u1". by vm_compute.
Defined.

End AuthClaims.

(** ** More on the stores and the hooks *)

Section StoreMore.
Variable getErrorMessage : JsError → string → string.

(** X15.  [updateJob] for an id that no job of the list has, and that the
    current job does not have, leaves the store as it is. *)
Theorem updateJob_missing_id id updates (state : JobsState) :
  (∀ job, job ∈ jobs state → job_id job ≠ id) →
  (∀ cur, currentJob state = Some cur → job_id cur ≠ id) →
  JobsStore.updateJob id updates state = state.
Proof.
  intros Hjobs Hcur. destruct state as [js cur ld fl pg]. unfold JobsStore.updateJob.
  cbn in *. f_equal.
  - induction js as [|j js IH]; [done|]. cbn.
    rewrite decide_False by (apply Hjobs; left). f_equal.
    apply IH. intros job Hin. apply Hjobs. by right.
  - destruct cur as [c|]; [|done]. by rewrite decide_False by by apply Hcur.
Qed.

Lemma updateJob_missing_id_witness :
  JobsStore.updateJob "Z" (rename "Renamed") (jobsStore sample_client)
  = jobsStore sample_client.
Proof.
  apply updateJob_missing_id.
  - apply Forall_forall. by_compute.
  - intros cur [= <-]. by vm_compute.
Defined.

(** X16.  [removeJob] undoes [addJob]: adding a job whose id no job of the
    store has, and removing that id again, gives back the store. *)
Theorem addJob_removeJob job (state : JobsState) :
  (∀ j, j ∈ jobs state → job_id j ≠ job_id job) →
  (∀ cur, currentJob state = Some cur → job_id cur ≠ job_id job) →
  JobsStore.removeJob (job_id job) (JobsStore.addJob job state) = state.
Proof.
  intros Hjobs Hcur. destruct state as [js cur ld fl pg].
  unfold JobsStore.removeJob, JobsStore.addJob. cbn in *. f_equal.
  - rewrite List_filter_filter, filter_app, filter_cons, filter_nil.
    rewrite decide_False, app_nil_r.
    + induction js as [|j js IH]; [done|]. rewrite filter_cons.
      rewrite decide_True.
      * f_equal. apply IH. intros j' Hin. apply Hjobs. by right.
      * apply bool_decide_pack, Hjobs. left.
    + intros Hne. apply bool_decide_unpack in Hne. done.
  - destruct cur as [c|]; [|done]. by rewrite decide_False by by apply Hcur.
Qed.

Lemma addJob_removeJob_witness :
  JobsStore.removeJob "D" (JobsStore.addJob (sample_job "D" 3) (jobsStore sample_client))
  = jobsStore sample_client.
Proof.
  apply (addJob_removeJob (sample_job "D" 3)).
  - apply Forall_forall. by_compute.
  - intros cur [= <-]. by vm_compute.
Defined.

Lemma absent_from_server_idem (server current : list Job) :
  absent_from_server server (server ++ absent_from_server server current)
  = absent_from_server server current.
Proof.
  unfold absent_from_server. rewrite filter_app.
  assert (filter (λ job, job_id job ∉ job_id <$> server) server = []) as ->.
  { apply filter_none. intros j Hj Hnot. apply Hnot.
    apply list_elem_of_fmap. by exists j. }
  cbn. apply filter_all. by intros j [? _]%list_elem_of_filter.
Qed.

(** X17.  The effect of [useJobs] is idempotent: run again with the same
    query data, it leaves the store, jobs and pagination, as the first
    run left it. *)
Theorem useJobs_effect_idempotent data (state : JobsState) :
  Hooks.useJobs_effect (Some data) (Hooks.useJobs_effect (Some data) state)
  = Hooks.useJobs_effect (Some data) state.
Proof.
  unfold Hooks.useJobs_effect. rewrite !optimisticJobs_absent_from_server.
  cbn [jobs JobsStore.setPagination JobsStore.setJobs].
  rewrite absent_from_server_idem. by destruct state.
Qed.

(** X18.  [useDeleteJob] takes the job out of the store when the mutation
    is issued and never puts it back: whether the commit succeeds or
    fails, after settlement no job of the store has the id, and the other
    jobs are there in their order.  After a failure the cache entry under
    [['jobs']] is the one from before. *)
Theorem useDeleteJob_removes rnd id committed (st : ClientState) :
  jobs (jobsStore (mutate (Hooks.useDeleteJob getErrorMessage rnd) id committed st))
  = filter (λ job, job_id job ≠ id) (jobs (jobsStore st))
  ∧ (∀ job, job ∈ jobs (jobsStore
                          (mutate (Hooks.useDeleteJob getErrorMessage rnd) id committed st))
            → job_id job ≠ id)
  ∧ (∀ error, committed = Rejected error →
       jobs_query (queryCache
                     (mutate (Hooks.useDeleteJob getErrorMessage rnd) id committed st))
       = jobs_query (queryCache st)).
Proof.
  assert (jobs (jobsStore (mutate (Hooks.useDeleteJob getErrorMessage rnd) id committed st))
          = filter (λ job, job_id job ≠ id) (jobs (jobsStore st))) as Hjobs.
  { unfold mutate. cbn.
    destruct (List.find _ (jobs (jobsStore st))) as [j|] eqn:E.
    - destruct committed as [d|e]; cbn;
        destruct (jobs_query (queryCache st)), (job_query (queryCache st) !! id); cbn;
        rewrite List_filter_filter; apply list_filter_iff; intros x;
        by rewrite bool_decide_spec.
    - assert (filter (λ job, job_id job ≠ id) (jobs (jobsStore st)) = jobs (jobsStore st))
        as ->.
      { apply filter_all. intros x Hx.
        rewrite List_find_None_elem in E. specialize (E x Hx).
        by apply bool_decide_eq_false in E. }
      destruct committed as [d|e]; cbn;
        by destruct (jobs_query (queryCache st)), (job_query (queryCache st) !! id). }
  split_and!.
  - done.
  - intros job. rewrite Hjobs. by intros [? _]%list_elem_of_filter.
  - intros error ->. destruct st as [js cs ts [jq jbq inv]]. unfold mutate. cbn.
    by destruct (List.find _ (jobs js)), jq, (jbq !! id).
Qed.

Lemma job_with_order_same j : job_with_order j (job_order j) = j.
Proof. by destruct j. Qed.

Lemma client_reorder_with_order f t j :
  Client.reorder_job f t j = job_with_order j (shifted_order f t (job_order j)).
Proof.
  unfold Client.reorder_job, shifted_order.
  repeat case_decide; try done; try lia. by rewrite job_with_order_same.
Qed.

Lemma shifted_order_back f t o : shifted_order t f (shifted_order f t o) = o.
Proof. unfold shifted_order. repeat case_decide; lia. Qed.

(** X19.  A move is undone by the opposite move: the optimistic
    projection from [t] back to [f] gives back every job moved from [f]
    to [t], and the backend computation gives back every order. *)
Theorem reorder_back_and_forth now now' f t (js : list Job) :
  Client.reorder_job t f <$> (Client.reorder_job f t <$> js) = js
  ∧ job_order <$> (Server.reorder_job now' t f <$> (Server.reorder_job now f t <$> js))
    = job_order <$> js.
Proof.
  split.
  - rewrite <-list_fmap_compose. rewrite <-(list_fmap_id js) at 2.
    apply list_fmap_ext. intros i j _. cbn.
    rewrite (client_reorder_with_order f t j), client_reorder_with_order. cbn.
    rewrite shifted_order_back. by destruct j.
  - rewrite !server_reorder_orders, <-list_fmap_compose.
    rewrite <-(list_fmap_id (job_order <$> js)) at 2.
    apply list_fmap_ext. intros i o _. apply shifted_order_back.
Qed.

End StoreMore.

(** ** Assessments: write and read *)

Section AssessmentClaims.
Context {Sections : Type}.
Import Assessments.
Implicit Types (s : gmap string (Assessment Sections)).

(** X20.  PUT /assessments/:jobId stores the body under the body's id,
    with the job id of the URL and the time of the call as [updatedAt];
    GET /assessments/:jobId then finds an assessment of that job, and it
    is the one just stored when no assessment under another id belongs to
    the job.  DELETE /assessments/:id for the stored id then makes GET
    answer 404 again. *)
Theorem put_then_get_assessment now jobId (assessmentData : Assessment Sections) s :
  ∃ saved s',
    put_assessment now jobId assessmentData s = (Success saved, s')
    ∧ s' !! assessment_id assessmentData = Some saved
    ∧ assessment_jobId saved = jobId ∧ assessment_updatedAt saved = now
    ∧ assessment_createdAt saved = assessment_createdAt assessmentData
    ∧ assessment_sections saved = assessment_sections assessmentData
    ∧ (∃ a, get_assessment jobId s' = Success a ∧ assessment_jobId a = jobId)
    ∧ ((∀ k b, s !! k = Some b → k ≠ assessment_id assessmentData →
               assessment_jobId b ≠ jobId) →
       get_assessment jobId s' = Success saved
       ∧ get_assessment jobId (delete_assessment (assessment_id assessmentData) s').2
         = Failure 404 "Assessment not found").
Proof.
  unfold put_assessment. eexists _, _. split; [done|].
  set (saved := mkAssessment _ _ _ _ _ _ _ _ _).
  unfold saveAssessment. cbn [assessment_id saved].
  assert (saved ∈ getAllAssessments (<[assessment_id assessmentData := saved]> s)) as Hin.
  { apply elem_of_iterate. eexists. by rewrite lookup_insert_eq. }
  split_and!; try done.
  - by rewrite lookup_insert_eq.
  - unfold get_assessment, getAssessmentByJob.
    destruct (List_find_is_Some
                (λ a : Assessment Sections, bool_decide (assessment_jobId a = jobId))
                _ saved Hin) as [a Ha]; [by apply bool_decide_eq_true|].
    rewrite Ha. exists a. split; [done|].
    apply List_find_Some_elem in Ha as [_ Ha]. by apply bool_decide_eq_true in Ha.
  - intros Hothers. split.
    + unfold get_assessment, getAssessmentByJob.
      rewrite (List_find_unique _ _ saved); [done|done|by apply bool_decide_eq_true|].
      intros y [k Hk]%elem_of_iterate Hy. apply bool_decide_eq_true in Hy.
      destruct (decide (k = assessment_id assessmentData)) as [->|Hne].
      * rewrite lookup_insert_eq in Hk. by injection Hk as <-.
      * rewrite lookup_insert_ne in Hk by done. by destruct (Hothers k y Hk Hne).
    + unfold get_assessment, getAssessmentByJob, delete_assessment, deleteAssessment.
      cbn [snd].
      assert (List.find (λ a : Assessment Sections, bool_decide (assessment_jobId a = jobId))
                (getAllAssessments
                   (delete (assessment_id assessmentData)
                           (<[assessment_id assessmentData := saved]> s))) = None) as ->;
        [|done].
      apply List_find_None_elem. intros y [k Hk]%elem_of_iterate.
      apply bool_decide_eq_false. intros Hy.
      destruct (decide (k = assessment_id assessmentData)) as [->|Hne].
      * by rewrite lookup_delete_eq in Hk.
      * rewrite lookup_delete_ne, lookup_insert_ne in Hk by done.
        by destruct (Hothers k y Hk Hne).
Qed.

End AssessmentClaims.

Lemma put_then_get_assessment_witness :
  ∃ saved,
    Assessments.get_assessment "B"
      (Assessments.put_assessment t1 "B" (sample_assessment "a2" "ignored")
         (Assessments.saveAssessment (sample_assessment "a1" "A") ∅)).2
    = Success saved
    ∧ Assessments.assessment_jobId saved = "B".
Proof.
  destruct (put_then_get_assessment t1 "B" (sample_assessment "a2" "ignored")
              (Assessments.saveAssessment (sample_assessment "a1" "A") ∅))
    as (saved & s' & H1 & _ & H2 & _ & _ & _ & _ & H3).
  injection H1 as <- <-. eexists. split; [|exact H2]. apply H3.
  intros k b Hk Hne. unfold Assessments.saveAssessment in Hk.
  destruct (decide (k = "a1")) as [->|Hk1].
  - rewrite lookup_insert_eq in Hk. by injection Hk as <-.
  - by rewrite lookup_insert_ne, lookup_empty in Hk.
Defined.

(** ** Errors on their way to the caller *)

Section ErrorPath.
Context {T : Type}.

(** X21.  An [ApiError] with a status from 1 to 499, thrown after [k]
    failures that were retried, ends the run: [withRetry] rejects with
    that very error and makes no further call. *)
Theorem withRetry_status_error_stops (fn : nat → Outcome T) maxRetries delay
    (k : nat) m st :
  (∀ j, (j < k)%nat → ∃ e, fn j = Rejected e ∧ gives_up e = false) →
  fn k = Rejected (ApiError m (Some st)) → 0 < st < 500 → (k ≤ maxRetries)%nat →
  withRetry fn maxRetries delay = (Rejected (ApiError m (Some st)), backoff delay k).
Proof.
  intros Hfail Hk Hst Hle. unfold withRetry, backoff.
  assert (∀ i remaining,
            (∀ j, (i ≤ j < i + k)%nat → ∃ e, fn j = Rejected e ∧ gives_up e = false) →
            fn (i + k)%nat = Rejected (ApiError m (Some st)) → (k ≤ remaining)%nat →
            withRetry_loop fn delay i remaining
            = (Rejected (ApiError m (Some st)),
               (λ x, delay * 2 ^ Z.of_nat x) <$> seq i k)) as Hloop.
  { clear Hfail Hk Hle. induction k as [|k IH]; intros i remaining Hfail Hk Hle.
    - rewrite Nat.add_0_r in Hk. apply withRetry_loop_gives_up; [done|lia..].
    - destruct remaining as [|r]; [lia|].
      destruct (Hfail i ltac:(lia)) as (e & He & Hg).
      cbn [withRetry_loop]. rewrite He, Hg.
      rewrite (IH (S i) r); [done| | |lia].
      + intros j Hj. apply Hfail. lia.
      + by replace (S i + k)%nat with (i + S k)%nat by lia. }
  apply Hloop; [|done|done]. intros j Hj. apply Hfail. lia.
Qed.


End ErrorPath.

Lemma withRetry_status_error_stops_witness :
  withRetry (λ i, if decide (i < 1)%nat then Rejected (PlainError "Failed to fetch")
                  else Rejected (ApiError "Job not found" (Some 404)) : Outcome unit)
            3 1000
  = (Rejected (ApiError "Job not found" (Some 404)), [1000]).
Proof.
  apply (withRetry_status_error_stops
           (λ i, if decide (i < 1)%nat then Rejected (PlainError "Failed to fetch")
                 else Rejected (ApiError "Job not found" (Some 404)) : Outcome unit)
           3 1000 1 "Job not found" 404).
  - intros j Hj. exists (PlainError "Failed to fetch"). by rewrite decide_True by done.
  - reflexivity.
  - lia.
  - lia.
Defined.


Lemma handlers_keep_keyed_witness :
  keyed (Server.patch_jobs_reorder t0 0 2 abc_store).2
  ∧ keyed (Server.delete_jobs t1 "A" abc_store).2.
Proof.
  destruct (handlers_keep_keyed t0 "r4nd0m" "A" 0 2 (sample_job_data "job-D")
              archive_patch abc_store (keyed_store_of _)) as (_ & _ & H3 & _).
  destruct (handlers_keep_keyed t1 "r4nd0m" "A" 0 2 (sample_job_data "job-D")
              archive_patch abc_store (keyed_store_of _)) as (_ & _ & _ & H4).
  by split.
Defined.

Lemma handlers_keep_keyed_candidates_witness :
  keyed_candidates
    (Server.patch_candidates t1 "e1" "c1" (only_stage tech)
       (StorageService.saveCandidate (sample_candidate "c1" screen) ∅)).2.
Proof.
  apply (handlers_keep_keyed_candidates t1 "e1" "e2" "c1"
           (mkCandidateData None "Ada" "ada@example.com" None None applied "A" None
                            None None)
           (only_stage tech)
           (StorageService.saveCandidate (sample_candidate "c1" screen) ∅)).
  apply map_Forall_insert_2; [reflexivity|apply map_Forall_empty].
Defined.

Lemma getAllJobs_sorted_witness :
  comes_before (sample_job "B" 1) (sample_job "A" 0) (StorageService.getAllJobs t0 abc_store).
Proof.
  apply (getAllJobs_sorted t0 abc_store).
  - by_compute.
  - by_compute.
  - reflexivity.
  - by vm_compute.
  - by vm_compute.
Defined.

Lemma useDeleteJob_removes_witness :
  job_id <$> jobs (jobsStore (mutate (Hooks.useDeleteJob (λ _ m, m) "t1") "A"
                                     (Rejected (PlainError "Failed")) sample_client))
  = ["B"].
Proof.
  rewrite (proj1 (useDeleteJob_removes (λ _ m, m) "t1" "A"
                    (Rejected (PlainError "Failed")) sample_client)).
  by vm_compute.
Defined.
